(** * Sentience runtime: a shallow embedding of [src/compiler/runtime.{h,cpp}]

    The runtime of the scripting language is a set of reference-counted
    objects ([Number], [String], [List], [Function]) handled through
    [std::shared_ptr], a chain of [Context]s and a handful of builtins.

    - a [double] is a primitive binary64 [float];
    - an [int] is a [Z] with the 32-bit wrap-around written out, a [size_t]
      a [Z] modulo 2^64;
    - a [std::string] is a [string];
    - a [ValuePtr] is an address in a store of objects, so that two
      pointers to one [List] are two copies of one address;
    - a [throw std::runtime_error(msg)] is the result [Throw msg];
    - undefined behaviour of C++ (a null or dangling pointer, a [double]
      whose truncation does not fit the [int] it is cast to) is the result
      [Undefined], and so is the one outcome that depends on the version
      of the C library (see [std::stod]). *)

From Stdlib Require Import ZArith Floats Uint63 Ascii String Lia.
From stdpp Require Import gmap strings list.

Set Warnings "-inexact-float".

#[local] Open Scope Z_scope.

(** ** Machine numbers *)

Module Machine.

Definition INT_MIN : Z := - 2 ^ 31.
Definition INT_MAX : Z := 2 ^ 31 - 1.

(** Conversion of an integer value to [int] (two's complement, modulo
    2^32) and to [size_t] (modulo 2^64). *)
Definition to_int (z : Z) : Z := (z + 2 ^ 31) mod 2 ^ 32 - 2 ^ 31.
Definition to_size_t (z : Z) : Z := z mod 2 ^ 64.

Definition in_int (z : Z) : Prop := INT_MIN <= z <= INT_MAX.

(** The integral part of a [double], rounded toward zero; [None] for an
    infinity or a NaN. *)
Definition truncate (d : float) : option Z :=
  match Prim2SF d with
  | S754_zero _ => Some 0
  | S754_finite s m e =>
      let mag := Z.shiftl (Z.pos m) e in
      Some (if s then - mag else mag)
  | S754_infinity _ | S754_nan => None
  end.

(** The largest integer not above a [double]: one below the truncation
    for a negative value with a fractional part.  The runtime never
    computes it; the description of [multedBy] speaks of it. *)
Definition floor (d : float) : option Z :=
  match Prim2SF d with
  | S754_zero _ => Some 0
  | S754_finite s m e =>
      let mag := Z.shiftl (Z.pos m) e in
      if s then
        if Z.shiftl mag (- e) =? Z.pos m then Some (- mag) else Some (- mag - 1)
      else Some mag
  | S754_infinity _ | S754_nan => None
  end.

(** [static_cast<int>(d)]: the value truncated toward zero when that
    fits an [int]; undefined otherwise ([conv.fpint]). *)
Definition double_to_int (d : float) : option Z :=
  match truncate d with
  | Some z => if (INT_MIN <=? z) && (z <=? INT_MAX) then Some z else None
  | None => None
  end.

(** Conversion of an integer to [double], to nearest even. *)
Definition Z_to_double (z : Z) : float :=
  SF2Prim (binary_normalize prec emax z 0 false).

End Machine.
Import Machine.

(** ** [std::stod]

    [num] parses with the C++ library's [std::stod], that is [strtod] in
    the "C" locale: optional white space, an optional sign, then the
    longest of a decimal numeral, a hexadecimal one ([0x...]), [inf],
    [infinity] or [nan] (in either case).  What follows the numeral is not
    looked at by [num], which passes no position argument.  No numeral at
    all is [std::invalid_argument]; a numeral for which [strtod] sets
    [ERANGE] is [std::out_of_range].  The conversion is to the nearest
    [double], ties to even.

    [ERANGE] is set on overflow.  On underflow the C standard leaves it to
    the implementation; this is glibc on x86-64, which sets it when the
    result is both tiny and inexact, tiny being judged after rounding:
    the value rounded to 53 bits, with no lower bound on the exponent, is
    still below the smallest normal [double].  One case is left open as
    [unsettled]: a tiny value of exactly 54 significant bits of which the
    last is the only one below the last place of a subnormal.  There the
    report depends on how the library came by the bits and not on the
    value: glibc 2.36 sets no [ERANGE] when the numeral is hexadecimal
    ([0x1.00000000000008p-1023]), and sets it for most of the decimal
    numerals of the same values, which have 750 digits or more. *)

Module Stod.

Inductive stod_result : Type :=
| Converted (d : float)
| invalid_argument
| out_of_range
| unsettled.

Definition code (c : ascii) : Z := Z.of_nat (nat_of_ascii c).

Definition isspace (c : ascii) : bool :=
  (code c =? 32) || ((9 <=? code c) && (code c <=? 13)).

Definition digit (c : ascii) : option Z :=
  if (48 <=? code c) && (code c <=? 57) then Some (code c - 48) else None.

Definition xdigit (c : ascii) : option Z :=
  if (48 <=? code c) && (code c <=? 57) then Some (code c - 48)
  else if (97 <=? code c) && (code c <=? 102) then Some (code c - 87)
  else if (65 <=? code c) && (code c <=? 70) then Some (code c - 55)
  else None.

Definition tolower (c : ascii) : Z :=
  if (65 <=? code c) && (code c <=? 90) then code c + 32 else code c.

Fixpoint skip_space (s : string) : string :=
  match s with
  | String c s' => if isspace c then skip_space s' else s
  | EmptyString => s
  end.

Definition take_sign (s : string) : bool * string :=
  match s with
  | String c s' =>
      if code c =? 45 then (true, s')
      else if code c =? 43 then (false, s')
      else (false, s)
  | EmptyString => (false, s)
  end.

(** Does [s] start with the lower-case word [w], in either case? *)
Fixpoint has_word (w s : string) : bool :=
  match w, s with
  | EmptyString, _ => true
  | String a w', String c s' => (code a =? tolower c) && has_word w' s'
  | String _ _, EmptyString => false
  end.

(** The leading digits of [s] appended to [acc] in base [base], how many
    they are, and the rest of [s]. *)
Fixpoint read_digits (dig : ascii → option Z) (base : Z) (s : string)
  (acc count : Z) : Z * Z * string :=
  match s with
  | String c s' =>
      match dig c with
      | Some d => read_digits dig base s' (acc * base + d) (count + 1)
      | None => (acc, count, s)
      end
  | EmptyString => (acc, count, s)
  end.

(** Digits with at most one point among them and at least one digit: the
    digits as one integer, the number of digits after the point, the
    rest. *)
Definition read_mantissa (dig : ascii → option Z) (base : Z) (s : string)
  : option (Z * Z * string) :=
  let '(m1, n1, r1) := read_digits dig base s 0 0 in
  match r1 with
  | String c r2 =>
      if code c =? 46 then
        let '(m2, n2, r3) := read_digits dig base r2 m1 0 in
        if n1 + n2 =? 0 then None else Some (m2, n2, r3)
      else if n1 =? 0 then None else Some (m1, 0, r1)
  | EmptyString => if n1 =? 0 then None else Some (m1, 0, r1)
  end.

(** An exponent part, [e] or [p] (given in lower case as [marker]), an
    optional sign and at least one decimal digit; 0 when there is none. *)
Definition read_exponent (marker : Z) (s : string) : Z :=
  match s with
  | String c r =>
      if tolower c =? marker then
        let '(neg, r') := take_sign r in
        let '(e, n, _) := read_digits digit 10 r' 0 0 in
        if n =? 0 then 0 else if neg then - e else e
      else 0
  | EmptyString => 0
  end.

(** The [double] nearest to [num / den] (ties to even), for [0 <= num]
    and [0 < den]: the quotient is taken with 64 bits or more and the
    remainder decides the rounding. *)
Definition nearest (neg : bool) (num den : Z) : spec_float :=
  if num =? 0 then S754_zero neg
  else
    let s := Z.max 0 (Z.log2 den + 64 - Z.log2 num) in
    let q := (num * 2 ^ s) / den in
    let r := (num * 2 ^ s) mod den in
    let loc := if r =? 0 then loc_Exact else loc_Inexact (2 * r ?= den) in
    binary_round_aux prec emax neg q (- s) loc.

(** Is the value of [f] exactly [num / den]? *)
Definition exact (f : spec_float) (num den : Z) : bool :=
  match f with
  | S754_zero _ => num =? 0
  | S754_finite _ m e =>
      if 0 <=? e then Z.pos m * 2 ^ e * den =? num
      else Z.pos m * den =? num * 2 ^ (- e)
  | S754_infinity _ | S754_nan => false
  end.

(** The [e] with [2 ^ e <= num / den < 2 ^ (e + 1)], for [0 < num] and
    [0 < den]. *)
Definition exponent (num den : Z) : Z :=
  let e := Z.log2 num - Z.log2 den in
  if num * 2 ^ Z.max 0 (- e) <? den * 2 ^ Z.max 0 e then e - 1 else e.

(** Tininess after rounding: [num / den] rounded to 53 bits, the exponent
    unbounded, is below 2^-1022.  The largest such value of 53 bits is
    2^-1022 - 2^-1075, and the tie between it and 2^-1022 goes to
    2^-1022, so these are the values below (2^54 - 1) * 2^-1076. *)
Definition tiny (num den : Z) : bool :=
  num * 2 ^ 1076 <? (2 ^ 54 - 1) * den.

(** What [num / den] has below 2^-1074, the last place of a subnormal,
    in units of 2^-1074 / [den]. *)
Definition below_last_place (num den : Z) : Z :=
  (num * 2 ^ 1074) mod den.

(** That part is exactly the 54th significant bit of the value, of weight
    [2 ^ (exponent - 53)]. *)
Definition only_54th_bit (num den : Z) : bool :=
  below_last_place num den * 2 ^ (- exponent num den - 1021) =? den.

(** The value [m * base ^ e] as [strtod] returns it, with its [ERANGE]. *)
Definition convert (neg : bool) (m base e : Z) : stod_result :=
  let num := if 0 <=? e then m * base ^ e else m in
  let den := if 0 <=? e then 1 else base ^ (- e) in
  let f := nearest neg num den in
  match f with
  | S754_infinity _ | S754_nan => out_of_range
  | _ =>
      if tiny num den && negb (exact f num den) then
        if only_54th_bit num den then unsettled else out_of_range
      else Converted (SF2Prim f)
  end.

Definition decimal (neg : bool) (s : string) : stod_result :=
  match read_mantissa digit 10 s with
  | Some (m, nfrac, rest) => convert neg m 10 (read_exponent 101 rest - nfrac)
  | None => invalid_argument
  end.

Definition hexadecimal (neg : bool) (s : string) : option stod_result :=
  match s with
  | String z (String x s') =>
      if (code z =? 48) && (tolower x =? 120) then
        match read_mantissa xdigit 16 s' with
        | Some (m, nfrac, rest) =>
            Some (convert neg m 2 (read_exponent 112 rest - 4 * nfrac))
        | None => None
        end
      else None
  | _ => None
  end.

Definition stod (str : string) : stod_result :=
  let '(neg, s) := take_sign (skip_space str) in
  if has_word "inf" s then Converted (if neg then neg_infinity else infinity)
  else if has_word "nan" s then Converted nan
  else match hexadecimal neg s with
       | Some r => r
       | None => decimal neg s
       end.

End Stod.
Import Stod.

(** ** Results of a call *)

Inductive Result (A : Type) : Type :=
| Ok (a : A)
| Throw (what : string)
| Undefined.
Arguments Ok {A} a.
Arguments Throw {A} what.
Arguments Undefined {A}.

Definition is_Ok {A} (r : Result A) : bool :=
  match r with Ok _ => true | _ => false end.

(** ** Objects and the store *)

Abbreviation ValuePtr := nat (only parsing).

(** [Function::NativeFunction] is a [std::function]; only its identity
    matters here, so it is a handle. *)
Abbreviation NativeFunction := nat (only parsing).

Inductive Value : Type :=
| Number (value_ : float)
| String (value_ : string)
| List (elements_ : list ValuePtr)
| Function (name_ : string) (function_ : NativeFunction).

(** The objects alive, by address.  Reference counts are not modelled:
    an object nobody points to is unobservable. *)
Abbreviation Heap := (list Value) (only parsing).

(** A computation on the store that returns, throws or is undefined.  The
    store survives a [throw]. *)
Definition M (A : Type) : Type := Heap -> Result A * Heap.

Definition ret {A} (a : A) : M A := fun h => (Ok a, h).
Definition throw {A} (what : string) : M A := fun h => (Throw what, h).
Definition undefined {A} : M A := fun h => (Undefined, h).

Definition bind {A B} (m : M A) (k : A -> M B) : M B :=
  fun h =>
    match m h with
    | (Ok a, h') => k a h'
    | (Throw what, h') => (Throw what, h')
    | (Undefined, h') => (Undefined, h')
    end.

Definition lift {A} (r : Result A) : M A := fun h => (r, h).

Declare Scope rt_scope.
Delimit Scope rt_scope with rt.
Notation "x <- m ;; k" := (bind m (fun x => k))
  (at level 100, m at next level, right associativity) : rt_scope.
Notation "m ;;; k" := (bind m (fun _ => k))
  (at level 100, right associativity) : rt_scope.
#[local] Open Scope rt_scope.

(** [*p]: the object a pointer refers to. *)
Definition deref (p : ValuePtr) : M Value :=
  fun h => match h !! p with
           | Some v => (Ok v, h)
           | None => (Undefined, h)
           end.

(** [std::make_shared<T>(...)] for an object that outlives the call. *)
Definition make_shared (v : Value) : M ValuePtr :=
  fun h => (Ok (length h), h ++ [v]).

(** [*p = v] for a live object. *)
Definition store (p : ValuePtr) (v : Value) : M unit :=
  fun h => match h !! p with
           | Some _ => (Ok tt, <[p := v]> h)
           | None => (Undefined, h)
           end.

(** [args[i]] on a [std::vector]: undefined outside the vector. *)
Definition at_ (args : list ValuePtr) (i : nat) : M ValuePtr :=
  match args !! i with
  | Some p => ret p
  | None => undefined
  end.

(** ** Value: type tests and narrowing conversions *)

Definition isNumber (v : Value) : bool :=
  match v with Number _ => true | _ => false end.
Definition isString (v : Value) : bool :=
  match v with String _ => true | _ => false end.
Definition isList (v : Value) : bool :=
  match v with List _ => true | _ => false end.
Definition isFunction (v : Value) : bool :=
  match v with Function _ _ => true | _ => false end.

(** [asNumber], [asString] and [asList] hand out
    [make_shared<T>] of the receiver itself: a copy.  The copy is
    returned as an object; the caller that keeps it puts it in the store. *)
Definition asNumber (v : Value) : Result float :=
  match v with
  | Number d => Ok d
  | _ => Throw "Cannot convert value to Number"
  end.

Definition asString (v : Value) : Result string :=
  match v with
  | String s => Ok s
  | _ => Throw "Cannot convert value to String"
  end.

Definition asList (v : Value) : Result (list ValuePtr) :=
  match v with
  | List es => Ok es
  | _ => Throw "Cannot convert value to List"
  end.

(** ** Arithmetic *)

Definition Value_multedBy (other : ValuePtr) : M ValuePtr :=
  throw "Multiplication not supported for this type".

Definition Value_divedBy (other : ValuePtr) : M ValuePtr :=
  throw "Division not supported for this type".

(** [for (int i = 0; i < count; ++i) result += str;] *)
Fixpoint repeat_loop (n : nat) (result str : string) : string :=
  match n with
  | O => result
  | S n' => repeat_loop n' (result +:+ str) str
  end.

Definition repeat_string (str : string) (count : Z) : string :=
  repeat_loop (Z.to_nat count) "" str.

(** [s] written [n] times over, the reading of "repeats the string". *)
Fixpoint times (n : nat) (s : string) : string :=
  match n with
  | O => ""
  | S n' => s +:+ times n' s
  end.

Definition cast_int (d : float) : M Z :=
  match double_to_int d with
  | Some z => ret z
  | None => undefined
  end.

Definition Number_multedBy (value_ : float) (other : ValuePtr) : M ValuePtr :=
  o <- deref other ;;
  if isNumber o then
    d <- lift (asNumber o) ;;
    make_shared (Number (value_ * d))
  else if isString o then
    str <- lift (asString o) ;;
    count <- cast_int value_ ;;
    make_shared (String (repeat_string str count))
  else Value_multedBy other.

Definition Number_divedBy (value_ : float) (other : ValuePtr) : M ValuePtr :=
  o <- deref other ;;
  if isNumber o then
    otherValue <- lift (asNumber o) ;;
    if PrimFloat.eqb otherValue 0 then throw "Division by zero"
    else make_shared (Number (value_ / otherValue))
  else Value_divedBy other.

Definition String_multedBy (value_ : string) (other : ValuePtr) : M ValuePtr :=
  o <- deref other ;;
  if isNumber o then
    d <- lift (asNumber o) ;;
    count <- cast_int d ;;
    make_shared (String (repeat_string value_ count))
  else Value_multedBy other.

(** Virtual dispatch on the receiver. *)
Definition multedBy (this other : ValuePtr) : M ValuePtr :=
  v <- deref this ;;
  match v with
  | Number d => Number_multedBy d other
  | String s => String_multedBy s other
  | List _ | Function _ _ => Value_multedBy other
  end.

Definition divedBy (this other : ValuePtr) : M ValuePtr :=
  v <- deref this ;;
  match v with
  | Number d => Number_divedBy d other
  | String _ | List _ | Function _ _ => Value_divedBy other
  end.

(** ** List *)

(** [List::getItem(int index) const].  [index += elements_.size()] adds in
    [size_t] and converts the sum back to [int]. *)
Definition List_getItem (elements_ : list ValuePtr) (index : Z) : Result ValuePtr :=
  let size := Z.of_nat (length elements_) in
  let index :=
    if index <? 0 then to_int (to_size_t (to_size_t index + size)) else index in
  if (index <? 0) || (size <=? to_size_t index)
  then Throw "List index out of range"
  else match elements_ !! Z.to_nat index with
       | Some v => Ok v
       | None => Undefined
       end.

(** [List::setItem(int index, const ValuePtr& value)], as the new
    [elements_] of the receiver. *)
Definition List_setItem (elements_ : list ValuePtr) (index : Z) (value : ValuePtr)
  : Result (list ValuePtr) :=
  let size := Z.of_nat (length elements_) in
  let index :=
    if index <? 0 then to_int (to_size_t (to_size_t index + size)) else index in
  if (index <? 0) || (size <=? to_size_t index)
  then Throw "List index out of range"
  else Ok (<[Z.to_nat index := value]> elements_).

(** [List::append]: [elements_.push_back(value)]. *)
Definition List_append (elements_ : list ValuePtr) (value : ValuePtr) : list ValuePtr :=
  elements_ ++ [value].

(** [List::length]: [static_cast<int>(elements_.size())]. *)
Definition List_length (elements_ : list ValuePtr) : Z :=
  to_int (Z.of_nat (length elements_)).

(** The mutators called through a [ListPtr]: they change the object the
    pointer refers to. *)
Definition append_at (lst value : ValuePtr) : M unit :=
  v <- deref lst ;;
  match v with
  | List es => store lst (List (List_append es value))
  | _ => undefined
  end.

Definition setItem_at (lst : ValuePtr) (index : Z) (value : ValuePtr) : M unit :=
  v <- deref lst ;;
  match v with
  | List es => es' <- lift (List_setItem es index value) ;; store lst (List es')
  | _ => undefined
  end.

Definition getItem_at (lst : ValuePtr) (index : Z) : M ValuePtr :=
  v <- deref lst ;;
  match v with
  | List es => lift (List_getItem es index)
  | _ => undefined
  end.

(** ** Standard library functions *)

Definition len (args : list ValuePtr) : M ValuePtr :=
  match args with
  | [] => throw "len() requires at least one argument"
  | _ :: _ =>
      a0 <- at_ args 0 ;;
      v0 <- deref a0 ;;
      if isList v0 then
        es <- lift (asList v0) ;;
        make_shared (Number (Z_to_double (List_length es)))
      else if isString v0 then
        s <- lift (asString v0) ;;
        make_shared (Number (Z_to_double (to_size_t (Z.of_nat (String.length s)))))
      else throw "len() requires a list or string argument"
  end.

(** [for (size_t i = 1; i < args.size(); ++i) list->append(args[i]);] *)
Fixpoint append_loop (lst : ValuePtr) (rest : list ValuePtr) : M unit :=
  match rest with
  | [] => ret tt
  | a :: rest' => append_at lst a ;;; append_loop lst rest'
  end.

Definition append (args : list ValuePtr) : M ValuePtr :=
  if Z.of_nat (length args) <? 2
  then throw "append() requires at least two arguments"
  else
    a0 <- at_ args 0 ;;
    v0 <- deref a0 ;;
    if negb (isList v0)
    then throw "First argument to append() must be a list"
    else
      (* ListPtr list = args[0]->asList(): the copy is kept, and returned *)
      es <- lift (asList v0) ;;
      lst <- make_shared (List es) ;;
      append_loop lst (drop 1 args) ;;;
      ret lst.

(** In [pop] the copy that [asList] hands out is a local: it is gone when
    the call returns, and only the element's pointer leaves. *)
Definition pop (args : list ValuePtr) : M ValuePtr :=
  match args with
  | [] => throw "pop() requires at least one argument"
  | _ :: _ =>
      a0 <- at_ args 0 ;;
      v0 <- deref a0 ;;
      if negb (isList v0)
      then throw "First argument to pop() must be a list"
      else
        lst <- lift (asList v0) ;;
        if List_length lst =? 0
        then throw "Cannot pop from an empty list"
        else
          index <-
            (if 1 <? Z.of_nat (length args) then
               a1 <- at_ args 1 ;;
               v1 <- deref a1 ;;
               if isNumber v1
               then d <- lift (asNumber v1) ;; cast_int d
               else ret (-1)
             else ret (-1)) ;;
          lift (List_getItem lst index)
  end.

(** [std::stod] throws [std::invalid_argument] or [std::out_of_range],
    and [num] catches either.  Where the library's versions differ on the
    [ERANGE] of an underflow, no outcome is given. *)
Definition num (args : list ValuePtr) : M ValuePtr :=
  match args with
  | [] => make_shared (Number 0)
  | _ :: _ =>
      a0 <- at_ args 0 ;;
      v0 <- deref a0 ;;
      if isNumber v0 then ret a0
      else if isString v0 then
        s <- lift (asString v0) ;;
        match stod s with
        | Converted value => make_shared (Number value)
        | invalid_argument | out_of_range =>
            throw "Cannot convert string to number"
        | unsettled => undefined
        end
      else throw "Cannot convert to number"
  end.

(** ** Context *)

Abbreviation ContextPtr := nat (only parsing).

Record Context : Type := mkContext {
  name_ : string;
  parent_ : option ContextPtr;
  variables_ : gmap string ValuePtr
}.

(** The contexts alive, by address: a child holds a pointer to its parent,
    so what the parent binds later is seen through the child. *)
Abbreviation Contexts := (list Context) (only parsing).

(** [std::make_shared<Context>(name, parent)]: no variable yet.  This
    constructor is how a child is made.  [Context::createChild] is not
    embedded: its body calls [shared_from_this()], and [Context] has no
    [std::enable_shared_from_this] base that would declare it. *)
Definition new_Context (name : string) (parent : option ContextPtr) (σ : Contexts)
  : ContextPtr * Contexts :=
  (length σ, σ ++ [mkContext name parent ∅]).

(** [variables_[name] = value;] *)
Definition setVariable (this : ContextPtr) (name : string) (value : ValuePtr)
  (σ : Contexts) : Result Contexts :=
  match σ !! this with
  | Some c =>
      Ok (<[this := mkContext (name_ c) (parent_ c)
                      (<[name := value]> (variables_ c))]> σ)
  | None => Undefined
  end.

(** [getVariable] calls itself on the parent.  Among [n] contexts a chain
    of parents longer than [n] comes back to a context it has left, and
    the recursion on it never returns: [n] calls are all a returning
    lookup makes, and running out of them is [Undefined]. *)
Fixpoint getVariable_from (fuel : nat) (σ : Contexts) (this : ContextPtr)
  (name : string) : Result ValuePtr :=
  match fuel with
  | O => Undefined
  | S fuel' =>
      match σ !! this with
      | None => Undefined
      | Some c =>
          match variables_ c !! name with
          | Some v => Ok v
          | None =>
              match parent_ c with
              | Some p => getVariable_from fuel' σ p name
              | None => Throw ("Variable '" +:+ name +:+ "' not defined")
              end
          end
      end
  end.

Definition getVariable (σ : Contexts) (this : ContextPtr) (name : string)
  : Result ValuePtr :=
  getVariable_from (length σ) σ this name.

Fixpoint hasVariable_from (fuel : nat) (σ : Contexts) (this : ContextPtr)
  (name : string) : Result bool :=
  match fuel with
  | O => Undefined
  | S fuel' =>
      match σ !! this with
      | None => Undefined
      | Some c =>
          match variables_ c !! name with
          | Some _ => Ok true
          | None =>
              match parent_ c with
              | Some p => hasVariable_from fuel' σ p name
              | None => Ok false
              end
          end
      end
  end.

Definition hasVariable (σ : Contexts) (this : ContextPtr) (name : string)
  : Result bool :=
  hasVariable_from (length σ) σ this name.

(** A parent exists before its child ([parent_] is set by the constructor
    and never again), so its address is the smaller one. *)
Definition parents_first (σ : Contexts) : Prop :=
  ∀ (c : ContextPtr) (ctx : Context) (p : ContextPtr),
    σ !! c = Some ctx → parent_ ctx = Some p → (p < c)%nat.

(** The stores a program can reach: contexts are made by the constructor
    (a root, or a child of a context that is alive) and changed by
    [setVariable] only. *)
Inductive built : Contexts → Prop :=
| built_nil : built []
| built_root (σ : Contexts) (name : string) :
    built σ → built (snd (new_Context name None σ))
| built_child (σ : Contexts) (this : ContextPtr) (name : string) :
    built σ → (this < length σ)%nat → built (snd (new_Context name (Some this) σ))
| built_set (σ σ' : Contexts) (this : ContextPtr) (name : string) (value : ValuePtr) :
    built σ → setVariable this name value σ = Ok σ' → built σ'.

(** [a] is [c] or one of its ancestors. *)
Inductive in_chain (σ : Contexts) : ContextPtr → ContextPtr → Prop :=
| chain_here (c : ContextPtr) : in_chain σ c c
| chain_up (c p a : ContextPtr) (ctx : Context) :
    σ !! c = Some ctx → parent_ ctx = Some p → in_chain σ p a → in_chain σ c a.

(** The scenario of the shadowing test: a root that binds [x], a child
    that binds [x] again. *)
Definition shadowing (v1 v2 : ValuePtr) : Result (Contexts * ContextPtr * ContextPtr) :=
  let '(root, σ1) := new_Context "root" None [] in
  match setVariable root "x" v1 σ1 with
  | Ok σ2 =>
      let '(child, σ3) := new_Context "child" (Some root) σ2 in
      match setVariable child "x" v2 σ3 with
      | Ok σ4 => Ok (σ4, root, child)
      | Throw w => Throw w
      | Undefined => Undefined
      end
  | Throw w => Throw w
  | Undefined => Undefined
  end.

(** ** Notions the properties are stated with *)

(** The index [getItem] and [setItem] mean by [i] on [n] elements. *)
Definition normalized (n i : Z) : Z := if i <? 0 then i + n else i.

(** Computations that leave the store as it was. *)
Definition read_only {A} (m : M A) : Prop := ∀ h, snd (m h) = h.

(** A character that no numeral contains and that is not white space. *)
Definition separator (c : ascii) : bool :=
  negb (isspace c)
  && negb ((48 <=? code c) && (code c <=? 57))
  && negb ((65 <=? code c) && (code c <=? 90))
  && negb ((97 <=? code c) && (code c <=? 122))
  && negb (code c =? 43) && negb (code c =? 45) && negb (code c =? 46).

Fixpoint lower_word (w : string) : bool :=
  match w with
  | EmptyString => true
  | String.String a w' => (97 <=? code a) && (code a <=? 122) && lower_word w'
  end.

(** * The rest of the runtime *)

(** ** Value: the operations a class does not override *)

Definition Value_addedTo (other : ValuePtr) : M ValuePtr :=
  throw "Addition not supported for this type".

Definition Value_subbedBy (other : ValuePtr) : M ValuePtr :=
  throw "Subtraction not supported for this type".

Definition Value_powedBy (other : ValuePtr) : M ValuePtr :=
  throw "Power operation not supported for this type".

Definition Value_comparisonEq (other : ValuePtr) : M ValuePtr :=
  throw "Equality comparison not supported for this type".

Definition Value_comparisonNe (other : ValuePtr) : M ValuePtr :=
  throw "Inequality comparison not supported for this type".

Definition Value_comparisonLt (other : ValuePtr) : M ValuePtr :=
  throw "Less than comparison not supported for this type".

Definition Value_comparisonGt (other : ValuePtr) : M ValuePtr :=
  throw "Greater than comparison not supported for this type".

Definition Value_comparisonLte (other : ValuePtr) : M ValuePtr :=
  throw "Less than or equal comparison not supported for this type".

Definition Value_comparisonGte (other : ValuePtr) : M ValuePtr :=
  throw "Greater than or equal comparison not supported for this type".

Definition Value_andedBy (other : ValuePtr) : M ValuePtr :=
  throw "Logical AND not supported for this type".

Definition Value_oredBy (other : ValuePtr) : M ValuePtr :=
  throw "Logical OR not supported for this type".

Definition Value_notted : M ValuePtr :=
  throw "Logical NOT not supported for this type".

(** ** isTrue *)

Definition Number_isTrue (value_ : float) : bool := negb (PrimFloat.eqb value_ 0).

Definition String_isTrue (value_ : string) : bool :=
  match value_ with EmptyString => false | _ => true end.

Definition List_isTrue (elements_ : list ValuePtr) : bool :=
  match elements_ with [] => false | _ :: _ => true end.

Definition isTrue (v : Value) : bool :=
  match v with
  | Number d => Number_isTrue d
  | String s => String_isTrue s
  | List es => List_isTrue es
  | Function _ _ => true
  end.

(** ** Number: arithmetic, comparisons, logic *)

Definition Number_addedTo (value_ : float) (other : ValuePtr) : M ValuePtr :=
  o <- deref other ;;
  if isNumber o then
    d <- lift (asNumber o) ;;
    make_shared (Number (value_ + d))
  else Value_addedTo other.

Definition Number_subbedBy (value_ : float) (other : ValuePtr) : M ValuePtr :=
  o <- deref other ;;
  if isNumber o then
    d <- lift (asNumber o) ;;
    make_shared (Number (value_ - d))
  else Value_subbedBy other.

Definition Number_comparisonEq (value_ : float) (other : ValuePtr) : M ValuePtr :=
  o <- deref other ;;
  if isNumber o then
    d <- lift (asNumber o) ;;
    make_shared (Number (if PrimFloat.eqb value_ d then 1 else 0))
  else make_shared (Number 0).

Definition Number_comparisonNe (value_ : float) (other : ValuePtr) : M ValuePtr :=
  o <- deref other ;;
  if isNumber o then
    d <- lift (asNumber o) ;;
    make_shared (Number (if negb (PrimFloat.eqb value_ d) then 1 else 0))
  else make_shared (Number 1).

Definition Number_comparisonLt (value_ : float) (other : ValuePtr) : M ValuePtr :=
  o <- deref other ;;
  if isNumber o then
    d <- lift (asNumber o) ;;
    make_shared (Number (if PrimFloat.ltb value_ d then 1 else 0))
  else Value_comparisonLt other.

(** [value_ > d] is [d < value_], and [value_ >= d] is [d <= value_]. *)
Definition Number_comparisonGt (value_ : float) (other : ValuePtr) : M ValuePtr :=
  o <- deref other ;;
  if isNumber o then
    d <- lift (asNumber o) ;;
    make_shared (Number (if PrimFloat.ltb d value_ then 1 else 0))
  else Value_comparisonGt other.

Definition Number_comparisonLte (value_ : float) (other : ValuePtr) : M ValuePtr :=
  o <- deref other ;;
  if isNumber o then
    d <- lift (asNumber o) ;;
    make_shared (Number (if PrimFloat.leb value_ d then 1 else 0))
  else Value_comparisonLte other.

Definition Number_comparisonGte (value_ : float) (other : ValuePtr) : M ValuePtr :=
  o <- deref other ;;
  if isNumber o then
    d <- lift (asNumber o) ;;
    make_shared (Number (if PrimFloat.leb d value_ then 1 else 0))
  else Value_comparisonGte other.

(** [isTrue() && other->isTrue()]: [other] is only looked at when the
    receiver does not decide. *)
Definition Number_andedBy (value_ : float) (other : ValuePtr) : M ValuePtr :=
  b <- (if Number_isTrue value_
        then o <- deref other ;; ret (isTrue o)
        else ret false) ;;
  make_shared (Number (if b then 1 else 0)).

Definition Number_oredBy (value_ : float) (other : ValuePtr) : M ValuePtr :=
  b <- (if Number_isTrue value_
        then ret true
        else o <- deref other ;; ret (isTrue o)) ;;
  make_shared (Number (if b then 1 else 0)).

Definition Number_notted (value_ : float) : M ValuePtr :=
  make_shared (Number (if Number_isTrue value_ then 0 else 1)).

(** Virtual dispatch on the receiver: only [Number] overrides these. *)
Definition subbedBy (this other : ValuePtr) : M ValuePtr :=
  v <- deref this ;;
  match v with
  | Number d => Number_subbedBy d other
  | String _ | List _ | Function _ _ => Value_subbedBy other
  end.

Definition comparisonEq (this other : ValuePtr) : M ValuePtr :=
  v <- deref this ;;
  match v with
  | Number d => Number_comparisonEq d other
  | String _ | List _ | Function _ _ => Value_comparisonEq other
  end.

Definition comparisonNe (this other : ValuePtr) : M ValuePtr :=
  v <- deref this ;;
  match v with
  | Number d => Number_comparisonNe d other
  | String _ | List _ | Function _ _ => Value_comparisonNe other
  end.

Definition comparisonLt (this other : ValuePtr) : M ValuePtr :=
  v <- deref this ;;
  match v with
  | Number d => Number_comparisonLt d other
  | String _ | List _ | Function _ _ => Value_comparisonLt other
  end.

Definition comparisonGt (this other : ValuePtr) : M ValuePtr :=
  v <- deref this ;;
  match v with
  | Number d => Number_comparisonGt d other
  | String _ | List _ | Function _ _ => Value_comparisonGt other
  end.

Definition comparisonLte (this other : ValuePtr) : M ValuePtr :=
  v <- deref this ;;
  match v with
  | Number d => Number_comparisonLte d other
  | String _ | List _ | Function _ _ => Value_comparisonLte other
  end.

Definition comparisonGte (this other : ValuePtr) : M ValuePtr :=
  v <- deref this ;;
  match v with
  | Number d => Number_comparisonGte d other
  | String _ | List _ | Function _ _ => Value_comparisonGte other
  end.

Definition andedBy (this other : ValuePtr) : M ValuePtr :=
  v <- deref this ;;
  match v with
  | Number d => Number_andedBy d other
  | String _ | List _ | Function _ _ => Value_andedBy other
  end.

Definition oredBy (this other : ValuePtr) : M ValuePtr :=
  v <- deref this ;;
  match v with
  | Number d => Number_oredBy d other
  | String _ | List _ | Function _ _ => Value_oredBy other
  end.

Definition notted (this : ValuePtr) : M ValuePtr :=
  v <- deref this ;;
  match v with
  | Number d => Number_notted d
  | String _ | List _ | Function _ _ => Value_notted
  end.

(** The truth value of the object behind a pointer. *)
Definition truth (h : Heap) (p : ValuePtr) : option bool :=
  match h !! p with
  | Some v => Some (isTrue v)
  | None => None
  end.

(** The store [h'] is [h] with objects added: nothing that was there has
    changed, and nothing has gone. *)
Definition extends (h h' : Heap) : Prop := ∃ new : Heap, h' = h ++ new.

(** A computation that only ever adds objects. *)
Definition additive {A} (m : M A) : Prop := ∀ h, extends h (snd (m h)).

(** ** copy *)

(** [for (const auto& element : elements_)
       copiedElements.push_back(element->copy());] *)
Fixpoint copy_loop (cp : ValuePtr → M ValuePtr) (elements copiedElements : list ValuePtr)
  : M (list ValuePtr) :=
  match elements with
  | [] => ret copiedElements
  | element :: rest =>
      c <- cp element ;;
      copy_loop cp rest (copiedElements ++ [c])
  end.

(** [copy] of a List calls [copy] on each element, so on a List inside a
    List it nests.  [fuel] bounds the nesting; running out of it is the
    recursion that does not return. *)
Fixpoint copy_from (fuel : nat) (this : ValuePtr) : M ValuePtr :=
  match fuel with
  | O => undefined
  | S fuel' =>
      v <- deref this ;;
      match v with
      | Number value_ => make_shared (Number value_)
      | String value_ => make_shared (String value_)
      | List elements_ =>
          copiedElements <- copy_loop (copy_from fuel') elements_ [] ;;
          make_shared (List copiedElements)
      | Function name_ function_ => make_shared (Function name_ function_)
      end
  end.

(** Among [n] objects, Lists nested deeper than [n] contain one of
    themselves, and no copy of such a List ever ends. *)
Definition copy (this : ValuePtr) : M ValuePtr :=
  fun h => copy_from (length h) this h.

(** ** Functions of the C++ library

    [std::pow] and [std::to_string(double)] are not part of the runtime;
    what is said about the code that calls them holds whatever they
    compute. *)

Section Library.

Variable pow : float → float → float.
Variable to_string : float → string.

Definition Number_powedBy (value_ : float) (other : ValuePtr) : M ValuePtr :=
  o <- deref other ;;
  if isNumber o then
    d <- lift (asNumber o) ;;
    make_shared (Number (pow value_ d))
  else Value_powedBy other.

Definition powedBy (this other : ValuePtr) : M ValuePtr :=
  v <- deref this ;;
  match v with
  | Number d => Number_powedBy d other
  | String _ | List _ | Function _ _ => Value_powedBy other
  end.

(** *** toString *)

Definition Function_toString (name_ : string) : string :=
  "<function " +:+ name_ +:+ ">".

(** [for (size_t i = 0; i < elements_.size(); ++i) {
       if (i > 0) result += ", ";
       result += elements_[i]->toString(); }] *)
Fixpoint toString_loop (ts : ValuePtr → Result string) (elements : list ValuePtr)
  (i : nat) (result : string) : Result string :=
  match elements with
  | [] => Ok result
  | element :: rest =>
      match ts element with
      | Ok s =>
          toString_loop ts rest (S i)
            ((if (0 <? i)%nat then result +:+ ", " else result) +:+ s)
      | Throw what => Throw what
      | Undefined => Undefined
      end
  end.

(** [toString] is [const]: it reads the store.  [fuel] bounds the nesting
    of Lists, as for [copy]. *)
Fixpoint toString_from (fuel : nat) (h : Heap) (this : ValuePtr) : Result string :=
  match fuel with
  | O => Undefined
  | S fuel' =>
      match h !! this with
      | None => Undefined
      | Some (Number value_) => Ok (to_string value_)
      | Some (String value_) => Ok value_
      | Some (List elements_) =>
          match toString_loop (toString_from fuel' h) elements_ 0 "[" with
          | Ok result => Ok (result +:+ "]")
          | Throw what => Throw what
          | Undefined => Undefined
          end
      | Some (Function name_ _) => Ok (Function_toString name_)
      end
  end.

Definition toString (this : ValuePtr) : M string :=
  fun h => (toString_from (length h) h this, h).

(** *** String *)

Definition String_addedTo (value_ : string) (other : ValuePtr) : M ValuePtr :=
  o <- deref other ;;
  if isString o then
    s <- lift (asString o) ;;
    make_shared (String (value_ +:+ s))
  else
    s <- toString other ;;
    make_shared (String (value_ +:+ s)).

Definition addedTo (this other : ValuePtr) : M ValuePtr :=
  v <- deref this ;;
  match v with
  | Number d => Number_addedTo d other
  | String s => String_addedTo s other
  | List _ | Function _ _ => Value_addedTo other
  end.

(** *** str *)

Definition str (args : list ValuePtr) : M ValuePtr :=
  match args with
  | [] => make_shared (String "")
  | _ :: _ =>
      a0 <- at_ args 0 ;;
      s <- toString a0 ;;
      make_shared (String s)
  end.

End Library.

(** ** Values that are not nested in a cycle *)

(** [p] is a live object whose Lists, and the live objects in them, nest
    at most [n] deep. *)
Fixpoint nested (h : Heap) (n : nat) (p : ValuePtr) : Prop :=
  match n with
  | O => False
  | S n' =>
      match h !! p with
      | Some (List es) => Forall (nested h n') es
      | Some _ => True
      | None => False
      end
  end.

Definition finite (h : Heap) (p : ValuePtr) : Prop := ∃ n, nested h n p.

(** [p] in [h] and [p'] in [h'] are the same value: the same Number, text
    or Function, or Lists of the same values in the same order. *)
Fixpoint same (n : nat) (h : Heap) (p : ValuePtr) (h' : Heap) (p' : ValuePtr) : Prop :=
  match n with
  | O => False
  | S n' =>
      match h !! p, h' !! p' with
      | Some (Number a), Some (Number b) => a = b
      | Some (String a), Some (String b) => a = b
      | Some (Function a f), Some (Function b g) => a = b ∧ f = g
      | Some (List es), Some (List es') =>
          Forall2 (fun e e' => same n' h e h' e') es es'
      | _, _ => False
      end
  end.

(** Every object that [p] reaches through Lists, [p] included, has an
    address from [base] on. *)
Fixpoint made_from (base : nat) (n : nat) (h : Heap) (p : ValuePtr) : Prop :=
  match n with
  | O => False
  | S n' =>
      (base ≤ p)%nat
      ∧ match h !! p with
        | Some (List es) => Forall (made_from base n' h) es
        | Some _ => True
        | None => False
        end
  end.

(** The Number an operation returns, if it returns one. *)
Definition value_of (m : M ValuePtr) (h : Heap) : option float :=
  match m h with
  | (Ok p, h') =>
      match h' !! p with
      | Some (Number d) => Some d
      | _ => None
      end
  | _ => None
  end.

(** What one call of [copy] on an element gives, as the loop needs it:
    [h0] is the store the original lives in, [h] the store so far. *)
Definition copies (h0 : Heap) (n : nat) (cp : ValuePtr → M ValuePtr) (e : ValuePtr)
  : Prop :=
  ∀ h, extends h0 h →
    ∃ c new, cp e h = (Ok c, h ++ new)
             ∧ same n h0 e (h ++ new) c
             ∧ made_from (length h) n (h ++ new) c.


(** ** Input, output and the static Numbers

    [print], [input], [embed], [aiCall] and [initializeRuntime] write to
    [std::cout] or read [std::cin], and [Number::null] and its like keep a
    function-local [static] pointer.  The world is the store with the text
    written so far, the text not yet read, and those four pointers, empty
    until the first call. *)

Record World : Type := mkWorld {
  heap : Heap;
  cout : string;
  cin : string;
  null_instance : option ValuePtr;
  true_instance : option ValuePtr;
  false_instance : option ValuePtr;
  pi_instance : option ValuePtr
}.

Definition IO (A : Type) : Type := World → Result A * World.

Definition io_ret {A} (a : A) : IO A := fun w => (Ok a, w).

Definition io_throw {A} (what : string) : IO A := fun w => (Throw what, w).

Definition io_bind {A B} (m : IO A) (k : A → IO B) : IO B :=
  fun w =>
    match m w with
    | (Ok a, w') => k a w'
    | (Throw what, w') => (Throw what, w')
    | (Undefined, w') => (Undefined, w')
    end.

Declare Scope io_scope.
Delimit Scope io_scope with io.
Notation "x <-- m ;; k" := (io_bind m (fun x => k))
  (at level 100, m at next level, right associativity) : io_scope.
Notation "m ;;;; k" := (io_bind m (fun _ => k))
  (at level 100, right associativity) : io_scope.

Definition with_heap (h : Heap) (w : World) : World :=
  mkWorld h (cout w) (cin w) (null_instance w) (true_instance w)
    (false_instance w) (pi_instance w).

(** A computation on the store, in the world. *)
Definition run {A} (m : M A) : IO A :=
  fun w => let '(r, h') := m (heap w) in (r, with_heap h' w).

(** [std::cout << s]. *)
Definition write (s : string) : IO unit :=
  fun w => (Ok tt, mkWorld (heap w) (cout w +:+ s) (cin w) (null_instance w)
                     (true_instance w) (false_instance w) (pi_instance w)).

Definition newline : ascii := ascii_of_nat 10.

(** [std::endl]: a new line (and a flush, which shows nowhere here). *)
Definition endl : string := String.String newline "".

(** The first line of a text, without its end, and what follows the line;
    at the end of the text the line is empty. *)
Fixpoint first_line (s : string) : string * string :=
  match s with
  | EmptyString => (EmptyString, EmptyString)
  | String.String c rest =>
      if Ascii.eqb c newline then (EmptyString, rest)
      else let '(l, r) := first_line rest in (String.String c l, r)
  end.

(** [std::getline(std::cin, line)] into an empty [line]: at the end of
    the input nothing is read and [line] stays empty. *)
Definition getline : IO string :=
  fun w => let '(l, r) := first_line (cin w) in
           (Ok l, mkWorld (heap w) (cout w) r (null_instance w)
                    (true_instance w) (false_instance w) (pi_instance w)).

(** [static NumberPtr instance = std::make_shared<Number>(0.0);
     return instance;] *)
Definition Number_null : IO ValuePtr :=
  fun w =>
    match null_instance w with
    | Some p => (Ok p, w)
    | None =>
        (Ok (length (heap w)),
         mkWorld (heap w ++ [Number 0]) (cout w) (cin w)
           (Some (length (heap w))) (true_instance w) (false_instance w)
           (pi_instance w))
    end.

Definition Number_trueValue : IO ValuePtr :=
  fun w =>
    match true_instance w with
    | Some p => (Ok p, w)
    | None =>
        (Ok (length (heap w)),
         mkWorld (heap w ++ [Number 1]) (cout w) (cin w)
           (null_instance w) (Some (length (heap w))) (false_instance w)
           (pi_instance w))
    end.

Definition Number_falseValue : IO ValuePtr :=
  fun w =>
    match false_instance w with
    | Some p => (Ok p, w)
    | None =>
        (Ok (length (heap w)),
         mkWorld (heap w ++ [Number 0]) (cout w) (cin w)
           (null_instance w) (true_instance w) (Some (length (heap w)))
           (pi_instance w))
    end.

Definition Number_pi : IO ValuePtr :=
  fun w =>
    match pi_instance w with
    | Some p => (Ok p, w)
    | None =>
        (Ok (length (heap w)),
         mkWorld (heap w ++ [Number 3.14159265358979323846]) (cout w) (cin w)
           (null_instance w) (true_instance w) (false_instance w)
           (Some (length (heap w))))
    end.

(** [for (int i = 0; i < 10; ++i)
       embedding.push_back(std::make_shared<Number>(static_cast<double>(i) / 10.0));] *)
Fixpoint embedding_loop (n : nat) (i : Z) (embedding : list ValuePtr)
  : M (list ValuePtr) :=
  match n with
  | O => ret embedding
  | S n' =>
      p <- make_shared (Number (Z_to_double i / 10)) ;;
      embedding_loop n' (i + 1) (embedding ++ [p])
  end.

Section LibraryIO.

Variable to_string : float → string.

#[local] Open Scope io_scope.

(** [for (size_t i = 0; i < args.size(); ++i) {
       if (i > 0) std::cout << " ";
       std::cout << args[i]->toString(); }] *)
Fixpoint print_loop (args : list ValuePtr) (i : nat) : IO unit :=
  match args with
  | [] => io_ret tt
  | a :: rest =>
      (if (0 <? i)%nat then write " " else io_ret tt) ;;;;
      s <-- run (toString to_string a) ;;
      write s ;;;;
      print_loop rest (S i)
  end.

Definition print (args : list ValuePtr) : IO ValuePtr :=
  print_loop args 0 ;;;;
  write endl ;;;;
  Number_null.

Definition input (args : list ValuePtr) : IO ValuePtr :=
  (match args with
   | [] => io_ret tt
   | _ :: _ =>
       a0 <-- run (at_ args 0) ;;
       s <-- run (toString to_string a0) ;;
       write s
   end) ;;;;
  line <-- getline ;;
  run (make_shared (String line)).

End LibraryIO.

#[local] Open Scope io_scope.

Definition embed (args : list ValuePtr) : IO ValuePtr :=
  match args with
  | [] => io_throw "embed() requires at least one argument"
  | _ :: _ =>
      a0 <-- run (at_ args 0) ;;
      v0 <-- run (deref a0) ;;
      if negb (isString v0)
      then io_throw "First argument to embed() must be a string"
      else
        model <--
          (if 1 <? Z.of_nat (length args) then
             a1 <-- run (at_ args 1) ;;
             v1 <-- run (deref a1) ;;
             if isString v1 then run (lift (asString v1)) else io_ret "default"
           else io_ret "default") ;;
        write ("Embedding text with model: " +:+ model +:+ endl) ;;;;
        embedding <-- run (embedding_loop 10 0 []) ;;
        run (make_shared (List embedding))
  end.

Definition aiCall (args : list ValuePtr) : IO ValuePtr :=
  match args with
  | [] => io_throw "ai() requires at least one argument"
  | _ :: _ =>
      a0 <-- run (at_ args 0) ;;
      v0 <-- run (deref a0) ;;
      if negb (isString v0)
      then io_throw "First argument to ai() must be a string"
      else
        model <-- run (lift (asString v0)) ;;
        write ("Calling AI model: " +:+ model +:+ endl) ;;;;
        run (make_shared (String "AI model response"))
  end.

Definition initializeRuntime : IO unit :=
  write ("Initializing ML runtime..." +:+ endl).

#[local] Close Scope io_scope.

(** ** An instance of [std::to_string]

    [std::to_string(double)] prints as [printf("%f")] does: the value
    rounded to six decimals (glibc rounds the exact binary value, ties to
    even), [inf] and [nan] for the others.  The sign of a NaN is not part
    of the value here, so this is an instance to run the runtime on, and
    no property rests on it. *)

Fixpoint decimal_digits (fuel : nat) (n : Z) (acc : string) : string :=
  match fuel with
  | O => acc
  | S fuel' =>
      let acc' := String.String (ascii_of_nat (Z.to_nat (48 + n mod 10))) acc in
      if n <? 10 then acc' else decimal_digits fuel' (n / 10) acc'
  end.

Definition decimal_of (n : Z) : string :=
  decimal_digits (S (Z.to_nat (Z.log2 n))) n "".

Definition six_decimals (neg : bool) (m : positive) (e : Z) : string :=
  let num := if 0 <=? e then Z.pos m * 2 ^ e * 10 ^ 6 else Z.pos m * 10 ^ 6 in
  let den := if 0 <=? e then 1 else 2 ^ (- e) in
  let q := num / den in
  let r := num mod den in
  let scaled :=
    match 2 * r ?= den with
    | Lt => q
    | Eq => if Z.even q then q else q + 1
    | Gt => q + 1
    end in
  (if neg then "-" else "")
  +:+ decimal_of (scaled / 10 ^ 6) +:+ "."
  +:+ match decimal_of (10 ^ 6 + scaled mod 10 ^ 6) with
      | String.String _ digits => digits
      | EmptyString => EmptyString
      end.

Definition to_string_f (d : float) : string :=
  match Prim2SF d with
  | S754_nan => "nan"
  | S754_infinity s => if s then "-inf" else "inf"
  | S754_zero s => if s then "-0.000000" else "0.000000"
  | S754_finite s m e => six_decimals s m e
  end.

(** * Properties *)

(** ** Evaluation of the store monad *)

Lemma bind_deref {B} (p : ValuePtr) (v : Value) (k : Value → M B) (h : Heap) :
  h !! p = Some v → bind (deref p) k h = k v h.
Proof. intros Hp. unfold bind, deref. now rewrite Hp. Qed.

Lemma bind_deref_dangling {B} (p : ValuePtr) (k : Value → M B) (h : Heap) :
  h !! p = None → bind (deref p) k h = (Undefined, h).
Proof. intros Hp. unfold bind, deref. now rewrite Hp. Qed.

Lemma bind_ret {A B} (a : A) (k : A → M B) (h : Heap) :
  bind (ret a) k h = k a h.
Proof. reflexivity. Qed.

Lemma bind_lift_Ok {A B} (a : A) (k : A → M B) (h : Heap) :
  bind (lift (Ok a)) k h = k a h.
Proof. reflexivity. Qed.

Lemma make_shared_lookup (v : Value) (h : Heap) :
  (h ++ [v]) !! length h = Some v.
Proof. rewrite lookup_app_r by lia. now rewrite Nat.sub_diag. Qed.

Lemma make_shared_frame (v : Value) (h : Heap) (p : ValuePtr) (w : Value) :
  h !! p = Some w → (h ++ [v]) !! p = Some w ∧ p ≠ length h.
Proof.
  intros Hp. split.
  - now apply lookup_app_l_Some.
  - apply lookup_lt_Some in Hp. lia.
Qed.

(** ** The builtins on small stores *)

Example number_times_string :
  Number_multedBy 3 1%nat [Number 3; String "ab"]
  = (Ok 2%nat, [Number 3; String "ab"; String "ababab"]).
Proof. reflexivity. Qed.

Example len_hello :
  len [0%nat] [String "hello"] = (Ok 1%nat, [String "hello"; Number 5]).
Proof. reflexivity. Qed.

Example append_two :
  append [0; 1; 2]%nat [List []; Number 1; Number 2]
  = (Ok 3%nat, [List []; Number 1; Number 2; List [1; 2]%nat]).
Proof. reflexivity. Qed.

Example pop_last :
  pop [0]%nat [List [1; 2]%nat; Number 1; Number 2]
  = (Ok 2%nat, [List [1; 2]%nat; Number 1; Number 2]).
Proof. reflexivity. Qed.

Example shadowing_lookup (v1 v2 : ValuePtr) :
  ∃ σ root child, shadowing v1 v2 = Ok (σ, root, child)
    ∧ getVariable σ child "x" = Ok v2 ∧ getVariable σ root "x" = Ok v1.
Proof. eexists _, _, _. split; [reflexivity|]. split; reflexivity. Qed.

(** ** Division *)

(** C6.  [a.divedBy(b)] on Numbers throws "Division by zero" exactly when
    [b == 0.0] (the comparison of doubles, under which [-0.0] is zero too),
    and otherwise returns a new Number holding the binary64 quotient;
    [a.divedBy(x)] with [x] not a Number throws "Division not supported for
    this type". *)
Theorem divedBy_Number (h : Heap) (this other : ValuePtr) (a : float) (x : Value) :
  h !! this = Some (Number a) →
  h !! other = Some x →
  (∀ b, x = Number b →
     (PrimFloat.eqb b 0 = true →
        divedBy this other h = (Throw "Division by zero", h))
     ∧ (PrimFloat.eqb b 0 = false →
        divedBy this other h = (Ok (length h), h ++ [Number (a / b)]))
     ∧ (fst (divedBy this other h) = Throw "Division by zero"
        ↔ PrimFloat.eqb b 0 = true))
  ∧ (isNumber x = false →
       divedBy this other h = (Throw "Division not supported for this type", h)).
Proof.
  intros Hthis Hother. unfold divedBy, Number_divedBy.
  rewrite (bind_deref _ _ _ _ Hthis). cbn beta iota.
  rewrite (bind_deref _ _ _ _ Hother). split.
  - intros b ->. cbn [isNumber asNumber]. rewrite bind_lift_Ok.
    destruct (PrimFloat.eqb b 0) eqn:Hz.
    + repeat split; try discriminate; reflexivity.
    + split; [discriminate|]. split; [reflexivity|].
      unfold make_shared; cbn. split; discriminate.
  - intros Hx. rewrite Hx. reflexivity.
Qed.

Lemma divedBy_Number_witness :
  let h := [Number 1; Number 0; String "s"] in
  divedBy 0 1 h = (Throw "Division by zero", h)
  ∧ divedBy 0 2 h = (Throw "Division not supported for this type", h).
Proof.
  intros h.
  pose proof (divedBy_Number h 0%nat 1%nat 1%float (Number 0) eq_refl eq_refl) as [H1 _].
  pose proof (divedBy_Number h 0%nat 2%nat 1%float (String "s") eq_refl eq_refl) as [_ H2].
  split.
  - exact (proj1 (H1 0%float eq_refl) eq_refl).
  - exact (H2 eq_refl).
Defined.

Example divedBy_negative_zero :
  divedBy 0 1 [Number 1; Number (-0)] = (Throw "Division by zero", [Number 1; Number (-0)]).
Proof. reflexivity. Qed.

Example divedBy_quotient :
  divedBy 0 1 [Number 1; Number 4] = (Ok 2%nat, [Number 1; Number 4; Number 0.25]).
Proof. reflexivity. Qed.

(** ** String repetition *)

Lemma string_app_assoc (a b c : string) : (a +:+ b) +:+ c = a +:+ (b +:+ c).
Proof.
  induction a as [|x a IH]; [reflexivity|].
  change (String.String x ((a +:+ b) +:+ c) = String.String x (a +:+ (b +:+ c))).
  now f_equal.
Qed.

Lemma string_app_nil_r (a : string) : a +:+ "" = a.
Proof.
  induction a as [|x a IH]; [reflexivity|].
  change (String.String x (a +:+ "") = String.String x a). now f_equal.
Qed.

Lemma repeat_loop_times (n : nat) (acc str : string) :
  repeat_loop n acc str = acc +:+ times n str.
Proof.
  revert acc. induction n as [|n IH]; intros acc; simpl.
  - now rewrite string_app_nil_r.
  - rewrite IH. apply string_app_assoc.
Qed.

Lemma repeat_string_times (str : string) (count : Z) :
  repeat_string str count = times (Z.to_nat count) str.
Proof. unfold repeat_string. now rewrite repeat_loop_times. Qed.

Lemma repeat_string_nonpos (str : string) (count : Z) :
  count <= 0 → repeat_string str count = "".
Proof.
  intros Hc. rewrite repeat_string_times.
  replace (Z.to_nat count) with O by lia. reflexivity.
Qed.

Lemma double_to_int_truncate (d : float) (z : Z) :
  double_to_int d = Some z ↔ truncate d = Some z ∧ in_int z.
Proof.
  unfold double_to_int, in_int. destruct (truncate d) as [t|]; [|split; [discriminate | now intros []]].
  destruct (INT_MIN <=? t) eqn:H1, (t <=? INT_MAX) eqn:H2; cbn; split;
    try discriminate; intros H; try (injection H as <-; split; [reflexivity|lia]);
    destruct H as [[= <-] H]; first [reflexivity | lia].
Qed.

(** Truncation and floor give the same number of repetitions: they differ
    only below zero, where nothing is repeated. *)
Lemma truncate_floor_count (d : float) (z : Z) :
  truncate d = Some z → ∃ f, floor d = Some f ∧ Z.to_nat f = Z.to_nat z.
Proof.
  unfold truncate, floor. destruct (Prim2SF d) as [b|b| |b m e]; try discriminate.
  - intros [= <-]. now exists 0.
  - pose proof (proj2 (Z.shiftl_nonneg (Z.pos m) e) ltac:(lia)) as Hmag.
    destruct b; intros [= <-].
    + destruct (_ =? _); eexists; (split; [reflexivity | lia]).
    + eexists; split; reflexivity.
Qed.

(** C7, as amended.  For a Number [n] whose truncation toward zero fits
    an [int] and a String [s], [n.multedBy(s)] and [s.multedBy(n)] both
    return a new String: [s] repeated as many times as the truncation of
    [n] says, which is also what floor says, and not at all for a count
    that is zero or negative; [s.multedBy(x)] for [x] not a Number throws
    "Multiplication not supported for this type". *)
Theorem multedBy_repeats :
  (∀ (h : Heap) (pn ps : ValuePtr) (n : float) (s : string) (count : Z),
     h !! pn = Some (Number n) →
     h !! ps = Some (String s) →
     double_to_int n = Some count →
     multedBy pn ps h = (Ok (length h), h ++ [String (times (Z.to_nat count) s)])
     ∧ multedBy ps pn h = (Ok (length h), h ++ [String (times (Z.to_nat count) s)])
     ∧ truncate n = Some count
     ∧ (∃ f, floor n = Some f ∧ Z.to_nat f = Z.to_nat count)
     ∧ (count <= 0 → times (Z.to_nat count) s = ""))
  ∧ (∀ (h : Heap) (ps px : ValuePtr) (s : string) (x : Value),
       h !! ps = Some (String s) →
       h !! px = Some x →
       isNumber x = false →
       multedBy ps px h = (Throw "Multiplication not supported for this type", h))
  ∧ multedBy 0 1 [Number 3; String "ab"]
    = (Ok 2%nat, [Number 3; String "ab"; String "ababab"])
  ∧ multedBy 0 1 [Number 0; String "x"]
    = (Ok 2%nat, [Number 0; String "x"; String ""]).
Proof.
  split; [|split; [|split; reflexivity]].
  - intros h pn ps n s count Hn Hs Hc.
    pose proof (proj1 (double_to_int_truncate _ _) Hc) as [Ht _].
    unfold multedBy, Number_multedBy, String_multedBy.
    repeat (first [rewrite (bind_deref _ _ _ _ Hn) | rewrite (bind_deref _ _ _ _ Hs)];
            cbn beta iota).
    cbn [isNumber isString asNumber asString]. rewrite !bind_lift_Ok.
    unfold cast_int. rewrite Hc, !bind_ret, repeat_string_times.
    repeat split; try assumption.
    + now apply truncate_floor_count.
    + intros Hle. replace (Z.to_nat count) with O by lia. reflexivity.
  - intros h ps px s x Hs Hx Hnot.
    unfold multedBy, String_multedBy.
    rewrite (bind_deref _ _ _ _ Hs). cbn beta iota.
    rewrite (bind_deref _ _ _ _ Hx), Hnot. reflexivity.
Qed.

Lemma multedBy_repeats_witness :
  let h := [Number 2.5; String "ab"; List []] in
  multedBy 0 1 h = (Ok 3%nat, h ++ [String "abab"])
  ∧ multedBy 1 0 h = (Ok 3%nat, h ++ [String "abab"])
  ∧ multedBy 1 2 h = (Throw "Multiplication not supported for this type", h).
Proof.
  intros h.
  destruct multedBy_repeats as [Hrep [Hnot _]].
  destruct (Hrep h 0%nat 1%nat 2.5%float "ab" 2 eq_refl eq_refl eq_refl)
    as (H1 & H2 & _).
  split; [exact H1|]. split; [exact H2|].
  exact (Hnot h 1%nat 2%nat "ab" (List []) eq_refl eq_refl eq_refl).
Defined.

(** C7 as stated fails where the cast is not defined: [1e10] has floor
    [10^10], and the runtime casts it to an [int] that cannot hold it, so
    no String of [10^10] copies comes back. *)
Lemma multedBy_count_beyond_int :
  floor 1e10 = Some 10000000000
  ∧ fst (multedBy 0 1 [Number 1e10; String "x"]) = Undefined
  ∧ fst (multedBy 1 0 [Number 1e10; String "x"]) = Undefined.
Proof. repeat split; reflexivity. Qed.

(** ** List indexing *)

Ltac machine_arith :=
  unfold to_int, to_size_t, in_int, INT_MIN, INT_MAX in *;
  change (2 ^ 31) with 2147483648 in *;
  change (2 ^ 32) with 4294967296 in *;
  change (2 ^ 64) with 18446744073709551616 in *;
  Z.div_mod_to_equations; lia.

(** The index arithmetic of [getItem] and [setItem] on an [int] index and
    a size that an [int] holds: a negative index has the size added. *)
Lemma index_wraparound (n i : Z) :
  in_int i → 0 <= n <= INT_MAX → i < 0 →
  to_int (to_size_t (to_size_t i + n)) = i + n.
Proof. intros Hi Hn Hneg. machine_arith. Qed.

Lemma to_size_t_small (k : Z) : 0 <= k <= INT_MAX → to_size_t k = k.
Proof. intros Hk. machine_arith. Qed.

Lemma to_int_small (k : Z) : in_int k → to_int k = k.
Proof. intros Hk. machine_arith. Qed.

Lemma List_getItem_in_range (L : list ValuePtr) (i : Z) :
  in_int i → Z.of_nat (length L) <= INT_MAX →
  0 <= normalized (Z.of_nat (length L)) i < Z.of_nat (length L) →
  ∃ x, L !! Z.to_nat (normalized (Z.of_nat (length L)) i) = Some x
       ∧ List_getItem L i = Ok x.
Proof.
  intros Hi Hn Hk. unfold List_getItem, normalized in *.
  set (n := Z.of_nat (length L)) in *.
  assert (Hk' : (if i <? 0 then to_int (to_size_t (to_size_t i + n)) else i)
                = (if i <? 0 then i + n else i)).
  { destruct (i <? 0) eqn:Hneg; [|reflexivity].
    apply index_wraparound; [assumption| |]; lia. }
  rewrite Hk'. set (k := if i <? 0 then i + n else i) in *.
  rewrite to_size_t_small by lia.
  replace ((k <? 0) || (n <=? k)) with false by (symmetry; apply orb_false_iff; lia).
  destruct (lookup_lt_is_Some_2 L (Z.to_nat k) ltac:(lia)) as [x Hx].
  exists x. now rewrite Hx.
Qed.

Lemma List_setItem_in_range (L : list ValuePtr) (i : Z) (v : ValuePtr) :
  in_int i → Z.of_nat (length L) <= INT_MAX →
  0 <= normalized (Z.of_nat (length L)) i < Z.of_nat (length L) →
  List_setItem L i v = Ok (<[Z.to_nat (normalized (Z.of_nat (length L)) i) := v]> L).
Proof.
  intros Hi Hn Hk. unfold List_setItem, normalized in *.
  set (n := Z.of_nat (length L)) in *.
  assert (Hk' : (if i <? 0 then to_int (to_size_t (to_size_t i + n)) else i)
                = (if i <? 0 then i + n else i)).
  { destruct (i <? 0) eqn:Hneg; [|reflexivity].
    apply index_wraparound; [assumption| |]; lia. }
  rewrite Hk'. set (k := if i <? 0 then i + n else i) in *.
  rewrite to_size_t_small by lia.
  now replace ((k <? 0) || (n <=? k)) with false by (symmetry; apply orb_false_iff; lia).
Qed.

Lemma List_index_out_of_range (L : list ValuePtr) (i : Z) (v : ValuePtr) :
  in_int i → Z.of_nat (length L) <= INT_MAX →
  ¬ (0 <= normalized (Z.of_nat (length L)) i < Z.of_nat (length L)) →
  List_getItem L i = Throw "List index out of range"
  ∧ List_setItem L i v = Throw "List index out of range".
Proof.
  intros Hi Hn Hk. unfold List_getItem, List_setItem, normalized in *.
  set (n := Z.of_nat (length L)) in *.
  assert (Hk' : (if i <? 0 then to_int (to_size_t (to_size_t i + n)) else i)
                = (if i <? 0 then i + n else i)).
  { destruct (i <? 0) eqn:Hneg; [|reflexivity].
    apply index_wraparound; [assumption| |]; lia. }
  rewrite Hk'. set (k := if i <? 0 then i + n else i) in *.
  assert (Hthrow : (k <? 0) || (n <=? to_size_t k) = true).
  { apply orb_true_iff. destruct (Z.ltb_spec k 0) as [Hlt|Hge]; [now left|right].
    rewrite to_size_t_small; [lia|].
    subst k. destruct (i <? 0) eqn:Hneg; unfold in_int, INT_MIN, INT_MAX in *; lia. }
  now rewrite Hthrow.
Qed.

(** C5.  On a List of [n] elements ([n] within [int], as [length()]
    returns it) and an [int] index [i], [getItem(i)] and [setItem(i, v)]
    read a negative [i] as [i + n]; with the index so normalized inside
    [0, n) the element there is returned (replaced, in place), and
    otherwise both throw "List index out of range".  On [[1, 2, 3]],
    [getItem(-1)] is the third element and [getItem(3)], [getItem(-4)]
    throw. *)
Theorem List_getItem_setItem :
  (∀ (L : list ValuePtr) (i : Z) (v : ValuePtr),
     in_int i →
     Z.of_nat (length L) <= INT_MAX →
     let n := Z.of_nat (length L) in
     let k := if i <? 0 then i + n else i in
     (0 <= k < n →
        (∃ x, L !! Z.to_nat k = Some x ∧ List_getItem L i = Ok x)
        ∧ List_setItem L i v = Ok (<[Z.to_nat k := v]> L)
        ∧ (∀ (h : Heap) (l : ValuePtr), h !! l = Some (List L) →
             setItem_at l i v h = (Ok tt, <[l := List (<[Z.to_nat k := v]> L)]> h)))
     ∧ (¬ (0 <= k < n) →
          List_getItem L i = Throw "List index out of range"
          ∧ List_setItem L i v = Throw "List index out of range"))
  ∧ (∀ e1 e2 e3 : ValuePtr,
       List_getItem [e1; e2; e3] (-1) = Ok e3
       ∧ List_getItem [e1; e2; e3] 3 = Throw "List index out of range"
       ∧ List_getItem [e1; e2; e3] (-4) = Throw "List index out of range").
Proof.
  split; [|intros; repeat split; reflexivity].
  intros L i v Hi Hn n k. split.
  - intros Hk. split; [|split].
    + now apply List_getItem_in_range.
    + now apply List_setItem_in_range.
    + intros h l Hl. unfold setItem_at.
      rewrite (bind_deref _ _ _ _ Hl).
      rewrite (List_setItem_in_range L i v Hi Hn Hk), bind_lift_Ok.
      unfold store. now rewrite Hl.
  - intros Hk. now apply List_index_out_of_range.
Qed.

Lemma List_getItem_setItem_witness :
  List_getItem [10; 20; 30]%nat (-2) = Ok 20%nat
  ∧ List_setItem [10; 20; 30]%nat (-2) 7%nat = Ok [10; 7; 30]%nat
  ∧ List_getItem [10; 20; 30]%nat 5 = Throw "List index out of range".
Proof.
  destruct List_getItem_setItem as [Hgen _].
  assert (Hi : in_int (-2)) by (unfold in_int, INT_MIN, INT_MAX; lia).
  assert (Hi5 : in_int 5) by (unfold in_int, INT_MIN, INT_MAX; lia).
  assert (Hn : Z.of_nat (length [10; 20; 30]%nat) <= INT_MAX)
    by (unfold INT_MAX; simpl; lia).
  destruct (Hgen [10; 20; 30]%nat (-2) 7%nat Hi Hn) as [Hin _].
  destruct (Hgen [10; 20; 30]%nat 5 7%nat Hi5 Hn) as [_ Hout].
  destruct (Hin ltac:(simpl; lia)) as ((x & Hx & Hget) & Hset & _).
  destruct (Hout ltac:(simpl; lia)) as [Hthrow _].
  simpl in Hx. injection Hx as <-.
  split; [exact Hget|]. split; [exact Hset | exact Hthrow].
Defined.

(** ** pop *)

Lemma read_only_bind {A B} (m : M A) (k : A → M B) :
  read_only m → (∀ a, read_only (k a)) → read_only (bind m k).
Proof.
  intros Hm Hk h. unfold bind. specialize (Hm h).
  destruct (m h) as [[a|w|] h']; cbn in *; subst h'; [apply Hk | reflexivity..].
Qed.

Lemma read_only_deref (p : ValuePtr) : read_only (deref p).
Proof. intros h. unfold deref. now destruct (h !! p). Qed.

Lemma read_only_lift {A} (r : Result A) : read_only (lift r).
Proof. now intros h. Qed.

Lemma read_only_ret {A} (a : A) : read_only (ret a).
Proof. now intros h. Qed.

Lemma read_only_throw {A} (w : string) : read_only (@throw A w).
Proof. now intros h. Qed.

Lemma read_only_at (args : list ValuePtr) (i : nat) : read_only (at_ args i).
Proof. unfold at_. now destruct (args !! i). Qed.

Lemma read_only_cast_int (d : float) : read_only (cast_int d).
Proof. unfold cast_int. now destruct (double_to_int d). Qed.

Create HintDb read_only.
#[local] Hint Resolve read_only_deref read_only_lift read_only_ret
  read_only_throw read_only_at read_only_cast_int : read_only.

Lemma read_only_pop (args : list ValuePtr) : read_only (pop args).
Proof.
  unfold pop. destruct args as [|a0 rest]; [auto with read_only|].
  apply read_only_bind; [auto with read_only|]. intros p.
  apply read_only_bind; [auto with read_only|]. intros v0.
  destruct (negb (isList v0)); [auto with read_only|].
  apply read_only_bind; [auto with read_only|]. intros lst.
  destruct (List_length lst =? 0); [auto with read_only|].
  apply read_only_bind; [|auto with read_only].
  destruct (1 <? Z.of_nat (length (a0 :: rest))); [|auto with read_only].
  apply read_only_bind; [auto with read_only|]. intros a1.
  apply read_only_bind; [auto with read_only|]. intros v1.
  destruct (isNumber v1); [|auto with read_only].
  apply read_only_bind; auto with read_only.
Qed.

Lemma List_length_small (L : list ValuePtr) :
  Z.of_nat (length L) <= INT_MAX → List_length L = Z.of_nat (length L).
Proof.
  intros Hn. unfold List_length. apply to_int_small.
  unfold in_int, INT_MIN, INT_MAX in *. lia.
Qed.

(** [getItem(-1)] is the last element. *)
Lemma List_getItem_last (L : list ValuePtr) :
  L ≠ [] → Z.of_nat (length L) <= INT_MAX →
  ∃ x, last L = Some x ∧ List_getItem L (-1) = Ok x.
Proof.
  intros Hne Hn.
  assert (Hlen : (0 < length L)%nat) by (destruct L; [congruence | simpl; lia]).
  destruct (List_getItem_in_range L (-1)) as (x & Hx & Hget).
  - unfold in_int, INT_MIN, INT_MAX; lia.
  - assumption.
  - unfold normalized; simpl; lia.
  - exists x. split; [|assumption]. rewrite last_lookup.
    unfold normalized in Hx; simpl in Hx.
    now replace (Nat.pred (length L)) with (Z.to_nat (-1 + Z.of_nat (length L))) by lia.
Qed.

(** What [pop] does up to the choice of the index, on a List that is not
    empty. *)
Lemma pop_on_list (h : Heap) (l : ValuePtr) (rest : list ValuePtr) (L : list ValuePtr) :
  h !! l = Some (List L) → L ≠ [] → Z.of_nat (length L) <= INT_MAX →
  pop (l :: rest) h
  = bind (if 1 <? Z.of_nat (length (l :: rest)) then
            a1 <- at_ (l :: rest) 1 ;;
            v1 <- deref a1 ;;
            if isNumber v1
            then d <- lift (asNumber v1) ;; cast_int d
            else ret (-1)
          else ret (-1))
         (fun index => lift (List_getItem L index)) h.
Proof.
  intros Hl Hne Hn. unfold pop.
  change (at_ (l :: rest) 0) with (@ret ValuePtr l). rewrite bind_ret.
  rewrite (bind_deref _ _ _ _ Hl). cbn [isList negb asList]. rewrite bind_lift_Ok.
  rewrite List_length_small by assumption.
  destruct (Z.eqb_spec (Z.of_nat (length L)) 0) as [H0|_]; [|reflexivity].
  destruct L; [congruence | simpl in H0; lia].
Qed.

(** C3.  On a List [L] that is not empty, [pop] with [[L]] returns the
    last element and with [[L, Number(i)]] the element at [i] (a negative
    [i] counted from the end), and removes nothing: the store after the
    call is the store before it, so [L] has the length and the elements it
    had.  [pop] throws with no argument, with a first argument that is not
    a List, and with an empty List. *)
Theorem pop_returns_without_removing :
  (∀ (h : Heap) (l : ValuePtr) (L : list ValuePtr),
     h !! l = Some (List L) → L ≠ [] → Z.of_nat (length L) <= INT_MAX →
     (∃ x, last L = Some x ∧ pop [l] h = (Ok x, h))
     ∧ (∀ (pi : ValuePtr) (d : float) (i : Z),
          h !! pi = Some (Number d) → double_to_int d = Some i →
          0 <= normalized (Z.of_nat (length L)) i < Z.of_nat (length L) →
          ∃ x, L !! Z.to_nat (normalized (Z.of_nat (length L)) i) = Some x
               ∧ pop [l; pi] h = (Ok x, h)))
  ∧ (∀ (args : list ValuePtr) (h : Heap), snd (pop args h) = h)
  ∧ (∀ h : Heap, pop [] h = (Throw "pop() requires at least one argument", h))
  ∧ (∀ (h : Heap) (a : ValuePtr) (rest : list ValuePtr) (v : Value),
       h !! a = Some v → isList v = false →
       pop (a :: rest) h = (Throw "First argument to pop() must be a list", h))
  ∧ (∀ (h : Heap) (a : ValuePtr) (rest : list ValuePtr),
       h !! a = Some (List []) →
       pop (a :: rest) h = (Throw "Cannot pop from an empty list", h)).
Proof.
  repeat split.
  - destruct (List_getItem_last L) as (x & Hlast & Hget); [assumption..|].
    exists x. split; [assumption|].
    rewrite (pop_on_list h l [] L) by assumption.
    change (1 <? Z.of_nat (length [l])) with false. cbn iota.
    rewrite bind_ret. unfold lift. now rewrite Hget.
  - intros pi d i Hpi Hd Hk.
    pose proof (proj1 (double_to_int_truncate _ _) Hd) as [_ Hi].
    destruct (List_getItem_in_range L i Hi) as (x & Hx & Hget); [assumption..|].
    exists x. split; [assumption|].
    rewrite (pop_on_list h l [pi] L) by assumption.
    change (1 <? Z.of_nat (length [l; pi])) with true. cbn iota.
    change (at_ [l; pi] 1) with (@ret ValuePtr pi).
    unfold bind at 1. rewrite bind_ret, (bind_deref _ _ _ _ Hpi).
    cbn [isNumber asNumber]. rewrite bind_lift_Ok. unfold cast_int. rewrite Hd.
    unfold ret, lift. now rewrite Hget.
  - intros args h. apply read_only_pop.
  - intros h a rest v Ha Hv. unfold pop.
    change (at_ (a :: rest) 0) with (@ret ValuePtr a).
    rewrite bind_ret, (bind_deref _ _ _ _ Ha), Hv. reflexivity.
  - intros h a rest Ha. unfold pop.
    change (at_ (a :: rest) 0) with (@ret ValuePtr a).
    rewrite bind_ret, (bind_deref _ _ _ _ Ha). reflexivity.
Qed.

Lemma pop_returns_without_removing_witness :
  let h := [List [1; 2]%nat; Number 10; Number 20; Number (-2)] in
  pop [0]%nat h = (Ok 2%nat, h) ∧ pop [0; 3]%nat h = (Ok 1%nat, h).
Proof.
  intros h.
  destruct pop_returns_without_removing as [Hpop _].
  destruct (Hpop h 0%nat [1; 2]%nat eq_refl ltac:(discriminate)
              ltac:(unfold INT_MAX; simpl; lia)) as [(x & Hx & Hdefault) Hindexed].
  destruct (Hindexed 3%nat (-2)%float (-2) eq_refl eq_refl
              ltac:(unfold normalized; simpl; lia))
    as (y & Hy & Hat).
  simpl in Hx, Hy. injection Hx as <-. injection Hy as <-.
  split; [exact Hdefault | exact Hat].
Defined.

(** C10.  A second argument of [pop] that is there but is not a Number (a
    String, a List, a Function) is not an error: the index stays [-1] and
    the last element of the List is returned. *)
Theorem pop_ignores_second_argument (h : Heap) (l p : ValuePtr)
  (rest : list ValuePtr) (L : list ValuePtr) (x : Value) :
  h !! l = Some (List L) → L ≠ [] → Z.of_nat (length L) <= INT_MAX →
  h !! p = Some x → isNumber x = false →
  ∃ e, last L = Some e
       ∧ List_getItem L (-1) = Ok e
       ∧ pop (l :: p :: rest) h = (Ok e, h).
Proof.
  intros Hl Hne Hn Hp Hx.
  destruct (List_getItem_last L) as (e & Hlast & Hget); [assumption..|].
  exists e. split; [assumption|]. split; [assumption|].
  rewrite (pop_on_list h l (p :: rest) L) by assumption.
  assert (Hargs : (1 <? Z.of_nat (length (l :: p :: rest))) = true)
    by (apply Z.ltb_lt; simpl length; lia).
  rewrite Hargs. change (at_ (l :: p :: rest) 1) with (@ret ValuePtr p).
  unfold bind at 1. rewrite bind_ret, (bind_deref _ _ _ _ Hp), Hx.
  unfold ret, lift. now rewrite Hget.
Qed.

Lemma pop_ignores_second_argument_witness :
  let h := [List [1; 2]%nat; Number 10; Number 20; String "0"] in
  pop [0; 3]%nat h = (Ok 2%nat, h) ∧ pop [0; 0]%nat h = (Ok 2%nat, h).
Proof.
  intros h.
  destruct (pop_ignores_second_argument h 0%nat 3%nat [] [1; 2]%nat (String "0")
              eq_refl ltac:(discriminate) ltac:(unfold INT_MAX; simpl; lia)
              eq_refl eq_refl) as (e & He & _ & Hpop).
  destruct (pop_ignores_second_argument h 0%nat 0%nat [] [1; 2]%nat (List [1; 2]%nat)
              eq_refl ltac:(discriminate) ltac:(unfold INT_MAX; simpl; lia)
              eq_refl eq_refl) as (e' & He' & _ & Hpop').
  simpl in He, He'. injection He as <-. injection He' as <-.
  split; [exact Hpop | exact Hpop'].
Defined.

(** ** append *)

Lemma append_loop_spec (rest : list ValuePtr) (h : Heap) (lst : ValuePtr)
  (es : list ValuePtr) :
  h !! lst = Some (List es) →
  append_loop lst rest h = (Ok tt, <[lst := List (es ++ rest)]> h).
Proof.
  revert h es. induction rest as [|a rest IH]; intros h es Hl; simpl.
  - rewrite app_nil_r. unfold ret. f_equal. symmetry. now apply list_insert_id.
  - unfold bind at 1. unfold append_at. rewrite (bind_deref _ _ _ _ Hl).
    unfold store. rewrite Hl.
    assert (Hlt : (lst < length h)%nat) by now apply lookup_lt_Some in Hl.
    rewrite (IH _ (List_append es a)).
    + unfold List_append. rewrite list_insert_insert_eq, <- app_assoc. reflexivity.
    + now apply list_lookup_insert_eq.
Qed.

(** What the builtin does with a List and at least one more argument: the
    elements of the List and the arguments go into a new List object. *)
Lemma append_spec (h : Heap) (l : ValuePtr) (vs es : list ValuePtr) :
  h !! l = Some (List es) → vs ≠ [] →
  append (l :: vs) h = (Ok (length h), h ++ [List (es ++ vs)]).
Proof.
  intros Hl Hvs. unfold append.
  assert (Hargs : (Z.of_nat (length (l :: vs)) <? 2) = false).
  { apply Z.ltb_ge. destruct vs; [congruence | simpl length; lia]. }
  rewrite Hargs. change (at_ (l :: vs) 0) with (@ret ValuePtr l).
  rewrite bind_ret, (bind_deref _ _ _ _ Hl). cbn [isList negb asList].
  rewrite bind_lift_Ok. unfold bind at 1, make_shared.
  change (drop 1 (l :: vs)) with vs.
  unfold bind. rewrite (append_loop_spec vs (h ++ [List es]) (length h) es)
    by apply make_shared_lookup.
  unfold ret. f_equal.
  rewrite insert_app_r_alt, Nat.sub_diag by lia. reflexivity.
Qed.

(** C1, on the code.  The builtin [append] called with a List [L] and
    [v1..vn] returns a pointer to a new List object, [L]'s elements
    followed by [v1..vn]; the object [L] points to is what it was, its
    length has not grown, and every other object in the store is
    untouched.  [asList] has copied the List before the first
    [push_back]. *)
Theorem append_builtin_appends_to_a_copy (h : Heap) (l : ValuePtr)
  (vs es : list ValuePtr) :
  h !! l = Some (List es) → vs ≠ [] →
  ∃ (r : ValuePtr) (h' : Heap),
    append (l :: vs) h = (Ok r, h')
    ∧ r ≠ l
    ∧ h' !! r = Some (List (es ++ vs))
    ∧ h' !! l = Some (List es)
    ∧ (∀ p v, h !! p = Some v → h' !! p = Some v).
Proof.
  intros Hl Hvs. exists (length h), (h ++ [List (es ++ vs)]).
  split; [now apply append_spec|].
  split; [apply lookup_lt_Some in Hl; lia|].
  split; [apply make_shared_lookup|].
  split; [now apply lookup_app_l_Some|].
  intros p v Hp. now apply lookup_app_l_Some.
Qed.

Lemma append_builtin_appends_to_a_copy_witness :
  let h := [List []; Number 1; Number 2] in
  ∃ h', append [0; 1; 2]%nat h = (Ok 3%nat, h')
        ∧ h' !! 0%nat = Some (List [])
        ∧ h' !! 3%nat = Some (List [1; 2]%nat).
Proof.
  intros h.
  destruct (append_builtin_appends_to_a_copy h 0%nat [1; 2]%nat [] eq_refl
              ltac:(discriminate)) as (r & h' & Happ & _ & Hr & Hl & _).
  exists h'.
  assert (Hr3 : r = 3%nat) by (vm_compute in Happ; congruence).
  subst r. split; [exact Happ|]. split; [exact Hl | exact Hr].
Defined.

(** ** Contexts *)

Section Lookup.

Variable σ : Contexts.
Variable name : string.
Hypothesis Hparents : parents_first σ.

(** Past the length of the chain the number of calls allowed changes
    nothing. *)
Lemma getVariable_from_fuel (f1 f2 : nat) (this : ContextPtr) :
  (this < f1)%nat → (this < f2)%nat →
  getVariable_from f1 σ this name = getVariable_from f2 σ this name.
Proof.
  revert f2 this. induction f1 as [|f1 IH]; intros f2 this H1 H2; [lia|].
  destruct f2 as [|f2]; [lia|]. simpl.
  destruct (σ !! this) as [c|] eqn:Hc; [|reflexivity].
  destruct (variables_ c !! name); [reflexivity|].
  destruct (parent_ c) as [p|] eqn:Hp; [|reflexivity].
  pose proof (Hparents this c p Hc Hp). apply IH; lia.
Qed.

Lemma getVariable_local (this : ContextPtr) (c : Context) (v : ValuePtr) :
  σ !! this = Some c → variables_ c !! name = Some v →
  getVariable σ this name = Ok v.
Proof.
  intros Hc Hv. unfold getVariable.
  pose proof (lookup_lt_Some _ _ _ Hc) as Hlt.
  destruct (length σ); [lia|]. simpl. now rewrite Hc, Hv.
Qed.

Lemma getVariable_parent (this p : ContextPtr) (c : Context) :
  σ !! this = Some c → variables_ c !! name = None → parent_ c = Some p →
  getVariable σ this name = getVariable σ p name.
Proof.
  intros Hc Hv Hp. unfold getVariable.
  pose proof (lookup_lt_Some _ _ _ Hc) as Hlt.
  pose proof (Hparents this c p Hc Hp) as Hlt'.
  rewrite (getVariable_from_fuel (length σ) (S this) this) by lia.
  rewrite (getVariable_from_fuel (length σ) this p) by lia.
  simpl. now rewrite Hc, Hv, Hp.
Qed.

Lemma getVariable_root (this : ContextPtr) (c : Context) :
  σ !! this = Some c → variables_ c !! name = None → parent_ c = None →
  getVariable σ this name = Throw ("Variable '" +:+ name +:+ "' not defined").
Proof.
  intros Hc Hv Hp. unfold getVariable.
  pose proof (lookup_lt_Some _ _ _ Hc) as Hlt.
  destruct (length σ); [lia|]. simpl. now rewrite Hc, Hv, Hp.
Qed.

(** The lookup returns or throws its one message. *)
Lemma getVariable_returns (this : ContextPtr) :
  (this < length σ)%nat →
  (∃ v, getVariable σ this name = Ok v)
  ∨ getVariable σ this name = Throw ("Variable '" +:+ name +:+ "' not defined").
Proof.
  induction this as [this IH] using lt_wf_ind. intros Hlt.
  destruct (lookup_lt_is_Some_2 σ this Hlt) as [c Hc].
  destruct (variables_ c !! name) as [v|] eqn:Hv.
  - left. exists v. now apply getVariable_local with c.
  - destruct (parent_ c) as [p|] eqn:Hp.
    + rewrite (getVariable_parent this p c Hc Hv Hp).
      pose proof (Hparents this c p Hc Hp). apply IH; lia.
    + right. now apply getVariable_root with c.
Qed.

Lemma in_chain_le (this a : ContextPtr) :
  in_chain σ this a → (a ≤ this)%nat.
Proof.
  induction 1 as [c|c p a c0 Hc Hp _ IH]; [lia|].
  pose proof (Hparents c c0 p Hc Hp). lia.
Qed.

Lemma getVariable_throws_absent (this a : ContextPtr) (c : Context) (w : string) :
  in_chain σ this a → getVariable σ this name = Throw w →
  σ !! a = Some c → variables_ c !! name = None.
Proof.
  induction 1 as [a|this p a c0 Hc0 Hp _ IH]; intros Hthrow Hc.
  - destruct (variables_ c !! name) as [v|] eqn:Hv; [|reflexivity].
    rewrite (getVariable_local a c v Hc Hv) in Hthrow. discriminate.
  - destruct (variables_ c0 !! name) as [v|] eqn:Hv.
    + rewrite (getVariable_local this c0 v Hc0 Hv) in Hthrow. discriminate.
    + rewrite (getVariable_parent this p c0 Hc0 Hv Hp) in Hthrow. now apply IH.
Qed.

Lemma getVariable_absent_throws (this : ContextPtr) :
  (this < length σ)%nat →
  (∀ a c, in_chain σ this a → σ !! a = Some c → variables_ c !! name = None) →
  getVariable σ this name = Throw ("Variable '" +:+ name +:+ "' not defined").
Proof.
  induction this as [this IH] using lt_wf_ind. intros Hlt Habs.
  destruct (lookup_lt_is_Some_2 σ this Hlt) as [c Hc].
  pose proof (Habs this c (chain_here σ this) Hc) as Hv.
  destruct (parent_ c) as [p|] eqn:Hp.
  - rewrite (getVariable_parent this p c Hc Hv Hp).
    pose proof (Hparents this c p Hc Hp).
    apply IH; [lia..|]. intros a c' Ha. apply Habs.
    now apply chain_up with p c.
  - now apply getVariable_root with c.
Qed.

End Lookup.

(** [hasVariable] walks as [getVariable] does and answers where that
    returns or throws. *)
Lemma hasVariable_from_getVariable (fuel : nat) (σ : Contexts) (this : ContextPtr)
  (name : string) :
  hasVariable_from fuel σ this name
  = match getVariable_from fuel σ this name with
    | Ok _ => Ok true
    | Throw _ => Ok false
    | Undefined => Undefined
    end.
Proof.
  revert this. induction fuel as [|fuel IH]; intros this; simpl; [reflexivity|].
  destruct (σ !! this) as [c|]; [|reflexivity].
  destruct (variables_ c !! name); [reflexivity|].
  destruct (parent_ c); [apply IH | reflexivity].
Qed.

Lemma hasVariable_getVariable (σ : Contexts) (this : ContextPtr) (name : string) :
  hasVariable σ this name
  = match getVariable σ this name with
    | Ok _ => Ok true
    | Throw _ => Ok false
    | Undefined => Undefined
    end.
Proof. apply hasVariable_from_getVariable. Qed.

(** The stores the runtime builds keep parents first. *)
Lemma parents_first_nil : parents_first [].
Proof. intros c ctx p Hc. now rewrite lookup_nil in Hc. Qed.

Lemma parents_first_new_Context (σ : Contexts) (name : string)
  (parent : option ContextPtr) :
  parents_first σ →
  (∀ p, parent = Some p → (p < length σ)%nat) →
  parents_first (snd (new_Context name parent σ)).
Proof.
  intros Hσ Hparent c ctx p Hc Hp. simpl in Hc.
  apply lookup_app_Some in Hc as [Hc|[Hlen Hc]]; [now apply (Hσ c ctx p)|].
  destruct (c - length σ)%nat as [|n] eqn:Hn; simpl in Hc; [|now rewrite lookup_nil in Hc].
  injection Hc as <-. simpl in Hp. specialize (Hparent p Hp). lia.
Qed.

Lemma parents_first_setVariable (σ σ' : Contexts) (this : ContextPtr)
  (name : string) (value : ValuePtr) :
  parents_first σ → setVariable this name value σ = Ok σ' → parents_first σ'.
Proof.
  intros Hσ Hset c ctx p Hc Hp. unfold setVariable in Hset.
  destruct (σ !! this) as [c0|] eqn:Hthis; [|discriminate]. injection Hset as <-.
  destruct (decide (c = this)) as [->|Hne].
  - rewrite list_lookup_insert_eq in Hc by now apply lookup_lt_Some in Hthis.
    injection Hc as <-. simpl in Hp. now apply (Hσ this c0 p).
  - rewrite list_lookup_insert_ne in Hc by congruence. now apply (Hσ c ctx p).
Qed.

Lemma built_parents_first (σ : Contexts) : built σ → parents_first σ.
Proof.
  induction 1 as [|σ name _ IH|σ this name _ IH Hthis|σ σ' this name value _ IH Hset].
  - apply parents_first_nil.
  - apply parents_first_new_Context; [exact IH | discriminate].
  - apply parents_first_new_Context; [exact IH | now intros p [= <-]].
  - exact (parents_first_setVariable σ σ' this name value IH Hset).
Qed.

(** C9.  [getVariable(name)] answers from the local mapping when the name
    is there and otherwise asks the parent; it throws "Variable 'name' not
    defined" exactly when the name is in no mapping of the chain, and
    otherwise returns.  [hasVariable(name)] always returns a boolean, and
    it is [true] exactly when [getVariable(name)] returns.  On a root
    context with no variable, [getVariable] throws. *)
Theorem getVariable_hasVariable :
  (∀ (σ : Contexts) (this : ContextPtr) (name : string),
     parents_first σ → (this < length σ)%nat →
     (∀ c v, σ !! this = Some c → variables_ c !! name = Some v →
        getVariable σ this name = Ok v)
     ∧ (∀ c p, σ !! this = Some c → variables_ c !! name = None →
          parent_ c = Some p →
          getVariable σ this name = getVariable σ p name
          ∧ hasVariable σ this name = hasVariable σ p name)
     ∧ (getVariable σ this name = Throw ("Variable '" +:+ name +:+ "' not defined")
        ↔ ∀ a c, in_chain σ this a → σ !! a = Some c → variables_ c !! name = None)
     ∧ ((∃ v, getVariable σ this name = Ok v)
        ∨ getVariable σ this name = Throw ("Variable '" +:+ name +:+ "' not defined"))
     ∧ (∃ b, hasVariable σ this name = Ok b)
     ∧ ((∃ v, getVariable σ this name = Ok v) ↔ hasVariable σ this name = Ok true))
  ∧ getVariable (snd (new_Context "root" None [])) 0 "undefined_name"
    = Throw "Variable 'undefined_name' not defined".
Proof.
  split; [|reflexivity].
  intros σ this name Hσ Hlt.
  pose proof (getVariable_returns σ name Hσ this Hlt) as Hret.
  split; [|split; [|split; [|split; [|split]]]].
  - intros c v. apply getVariable_local.
  - intros c p Hc Hv Hp. rewrite !hasVariable_getVariable.
    now rewrite (getVariable_parent σ name Hσ this p c Hc Hv Hp).
  - split.
    + intros Hthrow a c Ha.
      exact (getVariable_throws_absent σ name Hσ this a c _ Ha Hthrow).
    + now apply getVariable_absent_throws.
  - exact Hret.
  - rewrite hasVariable_getVariable.
    destruct Hret as [[v ->]| ->]; eexists; reflexivity.
  - rewrite hasVariable_getVariable.
    destruct Hret as [[v ->]| ->]; split; try discriminate; eauto.
    intros [v' Hv']. discriminate.
Qed.

Lemma getVariable_hasVariable_witness :
  ∃ σ root child,
    shadowing 7 9 = Ok (σ, root, child)
    ∧ getVariable σ child "x" = Ok 9%nat
    ∧ getVariable σ child "y" = Throw "Variable 'y' not defined"
    ∧ hasVariable σ child "x" = Ok true.
Proof.
  exists [mkContext "root" None (<["x" := 7%nat]> ∅);
          mkContext "child" (Some 0%nat) (<["x" := 9%nat]> ∅)], 0%nat, 1%nat.
  set (σ := [mkContext "root" None (<["x" := 7%nat]> ∅);
             mkContext "child" (Some 0%nat) (<["x" := 9%nat]> ∅)]).
  assert (Hσ : parents_first σ).
  { intros c ctx p Hc Hp.
    destruct c as [|[|c]]; simpl in Hc; [| |now rewrite lookup_nil in Hc];
      injection Hc as <-; simpl in Hp; [discriminate|].
    injection Hp as <-. lia. }
  destruct getVariable_hasVariable as [Hgen _].
  destruct (Hgen σ 1%nat "x" Hσ ltac:(simpl; lia)) as (Hlocal & _ & _ & _ & _ & Hiff).
  destruct (Hgen σ 1%nat "y" Hσ ltac:(simpl; lia)) as (_ & _ & Hthrow & _).
  split; [reflexivity|].
  pose proof (Hlocal _ 9%nat eq_refl eq_refl) as Hx.
  split; [exact Hx|]. split.
  - apply Hthrow. intros a c Ha Hc.
    assert (Hcases : a = 0%nat ∨ a = 1%nat).
    { apply lookup_lt_Some in Hc. simpl in Hc. lia. }
    destruct Hcases as [-> | ->]; simpl in Hc; injection Hc as <-; reflexivity.
  - apply Hiff. now exists 9%nat.
Defined.

(** ** setVariable *)

(** A context below the one written to reads what it read. *)
Lemma getVariable_from_below (σ : Contexts) (child : ContextPtr) (ctx : Context)
  (n : string) :
  parents_first σ →
  ∀ (fuel : nat) (a : ContextPtr), (a < child)%nat →
    getVariable_from fuel (<[child := ctx]> σ) a n = getVariable_from fuel σ a n.
Proof.
  intros Hσ. induction fuel as [|fuel IH]; intros a Ha; simpl; [reflexivity|].
  rewrite list_lookup_insert_ne by lia.
  destruct (σ !! a) as [c|] eqn:Hc; [|reflexivity].
  destruct (variables_ c !! n); [reflexivity|].
  destruct (parent_ c) as [p|] eqn:Hp; [|reflexivity].
  pose proof (Hσ a c p Hc Hp). apply IH. lia.
Qed.

(** C8.  [setVariable(name, value)] on a context writes the binding into
    that context's own mapping (a new binding or over the old one) and
    into no other context: every other context is what it was, and every
    ancestor answers every [getVariable] as before.  With [x = 1] in the
    root and [x = 2] set in a child, the child reads 2 and the root still
    reads 1. *)
Theorem setVariable_is_local :
  (∀ (σ : Contexts) (child : ContextPtr) (c : Context) (name : string)
     (value : ValuePtr),
     parents_first σ → σ !! child = Some c →
     ∃ σ', setVariable child name value σ = Ok σ'
       ∧ σ' !! child
         = Some (mkContext (name_ c) (parent_ c) (<[name := value]> (variables_ c)))
       ∧ (∀ q, q ≠ child → σ' !! q = σ !! q)
       ∧ (∀ a, in_chain σ child a → a ≠ child →
            ∀ n, getVariable σ' a n = getVariable σ a n)
       ∧ getVariable σ' child name = Ok value
       ∧ (∀ n, n ≠ name → getVariable σ' child n = getVariable σ child n))
  ∧ (∀ v1 v2 : ValuePtr,
       ∃ σ root child,
         shadowing v1 v2 = Ok (σ, root, child)
         ∧ getVariable σ child "x" = Ok v2
         ∧ getVariable σ root "x" = Ok v1).
Proof.
  split; [|apply shadowing_lookup].
  intros σ child c name value Hσ Hc.
  pose proof (lookup_lt_Some _ _ _ Hc) as Hlt.
  set (c' := mkContext (name_ c) (parent_ c) (<[name := value]> (variables_ c))).
  exists (<[child := c']> σ).
  assert (Hset : setVariable child name value σ = Ok (<[child := c']> σ))
    by (unfold setVariable; now rewrite Hc).
  assert (Hσ' : parents_first (<[child := c']> σ))
    by now apply (parents_first_setVariable σ _ child name value).
  assert (Hc' : <[child := c']> σ !! child = Some c')
    by now apply list_lookup_insert_eq.
  assert (Hbelow : ∀ a n, (a < child)%nat →
            getVariable (<[child := c']> σ) a n = getVariable σ a n).
  { intros a n Ha. unfold getVariable. rewrite length_insert.
    now apply getVariable_from_below. }
  split; [exact Hset|]. split; [exact Hc'|]. split; [|split; [|split]].
  - intros q Hq. now apply list_lookup_insert_ne.
  - intros a Ha Hne n. apply Hbelow.
    pose proof (in_chain_le σ Hσ child a Ha). lia.
  - apply getVariable_local with c'; [exact Hc'|]. simpl. apply lookup_insert_eq.
  - intros n Hn.
    assert (Hvars : variables_ c' !! n = variables_ c !! n)
      by (simpl; now apply lookup_insert_ne).
    destruct (variables_ c !! n) as [v|] eqn:Hv.
    + rewrite (getVariable_local _ n child c' v Hc' Hvars).
      now rewrite (getVariable_local _ n child c v Hc Hv).
    + destruct (parent_ c) as [p|] eqn:Hp.
      * rewrite (getVariable_parent _ n Hσ' child p c' Hc' Hvars eq_refl).
        rewrite (getVariable_parent _ n Hσ child p c Hc Hv Hp).
        apply Hbelow. exact (Hσ child c p Hc Hp).
      * rewrite (getVariable_root _ n child c' Hc' Hvars eq_refl).
        now rewrite (getVariable_root _ n child c Hc Hv Hp).
Qed.

Lemma setVariable_is_local_witness :
  let σ := [mkContext "root" None (<["x" := 1%nat]> ∅);
            mkContext "child" (Some 0%nat) ∅] in
  ∃ σ', setVariable 1 "x" 2%nat σ = Ok σ'
        ∧ getVariable σ' 1 "x" = Ok 2%nat
        ∧ getVariable σ' 0 "x" = Ok 1%nat
        ∧ σ' !! 0%nat = σ !! 0%nat.
Proof.
  intros σ.
  assert (Hσ : parents_first σ).
  { intros c ctx p Hc Hp.
    destruct c as [|[|c]]; simpl in Hc; [| |now rewrite lookup_nil in Hc];
      injection Hc as <-; simpl in Hp; [discriminate|].
    injection Hp as <-. lia. }
  destruct setVariable_is_local as [Hgen _].
  destruct (Hgen σ 1%nat _ "x" 2%nat Hσ eq_refl)
    as (σ' & Hset & _ & Hothers & Hancestors & Hchild & _).
  exists σ'. split; [exact Hset|]. split; [exact Hchild|]. split.
  - rewrite (Hancestors 0%nat); [reflexivity| |lia].
    apply chain_up with 0%nat (mkContext "child" (Some 0%nat) ∅);
      [reflexivity | reflexivity | apply chain_here].
  - apply Hothers. lia.
Defined.

(** ** len *)

(** C4, as amended.  [len] returns exactly when it has at least one
    argument and the first is a List or a String, whatever follows it; it
    then returns a new Number, the element count of the List ([length()],
    the count itself while an [int] holds it) or the character count of
    the String.  With no argument it throws "len() requires at least one
    argument", and with a first argument of another type "len() requires a
    list or string argument". *)
Theorem len_looks_at_first_argument :
  (∀ (args : list ValuePtr) (h : Heap),
     is_Ok (fst (len args h)) = true
     ↔ ∃ a rest v, args = a :: rest ∧ h !! a = Some v
                   ∧ (isList v = true ∨ isString v = true))
  ∧ (∀ (h : Heap) (a : ValuePtr) (rest es : list ValuePtr),
       h !! a = Some (List es) →
       len (a :: rest) h
       = (Ok (length h), h ++ [Number (Z_to_double (List_length es))])
       ∧ (Z.of_nat (length es) <= INT_MAX →
          List_length es = Z.of_nat (length es)))
  ∧ (∀ (h : Heap) (a : ValuePtr) (rest : list ValuePtr) (s : string),
       h !! a = Some (String s) →
       len (a :: rest) h
       = (Ok (length h),
          h ++ [Number (Z_to_double (to_size_t (Z.of_nat (String.length s))))]))
  ∧ (∀ h : Heap, len [] h = (Throw "len() requires at least one argument", h))
  ∧ (∀ (h : Heap) (a : ValuePtr) (rest : list ValuePtr) (v : Value),
       h !! a = Some v → isList v = false → isString v = false →
       len (a :: rest) h = (Throw "len() requires a list or string argument", h))
  ∧ len [0]%nat [String "hello"] = (Ok 1%nat, [String "hello"; Number 5])
  ∧ len [0]%nat [List []] = (Ok 1%nat, [List []; Number 0])
  ∧ len [0]%nat [Number 1]
    = (Throw "len() requires a list or string argument", [Number 1]).
Proof.
  assert (Hlist : ∀ (h : Heap) (a : ValuePtr) (rest es : list ValuePtr),
             h !! a = Some (List es) →
             len (a :: rest) h
             = (Ok (length h), h ++ [Number (Z_to_double (List_length es))])).
  { intros h a rest es Ha. unfold len.
    change (at_ (a :: rest) 0) with (@ret ValuePtr a).
    now rewrite bind_ret, (bind_deref _ _ _ _ Ha). }
  assert (Hstring : ∀ (h : Heap) (a : ValuePtr) (rest : list ValuePtr) (s : string),
             h !! a = Some (String s) →
             len (a :: rest) h
             = (Ok (length h),
                h ++ [Number (Z_to_double (to_size_t (Z.of_nat (String.length s))))])).
  { intros h a rest s Ha. unfold len.
    change (at_ (a :: rest) 0) with (@ret ValuePtr a).
    now rewrite bind_ret, (bind_deref _ _ _ _ Ha). }
  assert (Hother : ∀ (h : Heap) (a : ValuePtr) (rest : list ValuePtr) (v : Value),
             h !! a = Some v → isList v = false → isString v = false →
             len (a :: rest) h
             = (Throw "len() requires a list or string argument", h)).
  { intros h a rest v Ha Hl Hs. unfold len.
    change (at_ (a :: rest) 0) with (@ret ValuePtr a).
    now rewrite bind_ret, (bind_deref _ _ _ _ Ha), Hl, Hs. }
  split; [|split; [|split; [|split; [|split; [|repeat split; reflexivity]]]]].
  - intros args h. split.
    + destruct args as [|a rest]; [discriminate|].
      destruct (h !! a) as [v|] eqn:Ha.
      * intros Hok. exists a, rest, v. split; [reflexivity|]. split; [exact Ha|].
        destruct (isList v) eqn:Hl; [now left|].
        destruct (isString v) eqn:Hs; [now right|].
        rewrite (Hother h a rest v Ha Hl Hs) in Hok. discriminate.
      * unfold len. change (at_ (a :: rest) 0) with (@ret ValuePtr a).
        rewrite bind_ret, (bind_deref_dangling _ _ _ Ha). discriminate.
    + intros (a & rest & v & -> & Ha & Hv).
      destruct v as [d|s|es|nm fn]; destruct Hv as [Hv|Hv]; try discriminate.
      * now rewrite (Hstring h a rest s Ha).
      * now rewrite (Hlist h a rest es Ha).
  - intros h a rest es Ha. split; [now apply Hlist | apply List_length_small].
  - exact Hstring.
  - reflexivity.
  - exact Hother.
Qed.

Lemma len_looks_at_first_argument_witness :
  let h := [List [1; 1]%nat; Number 1; String "abc"; Function "f" 0] in
  len [0; 1]%nat h = (Ok 4%nat, h ++ [Number 2])
  ∧ len [2; 2; 2]%nat h = (Ok 4%nat, h ++ [Number 3])
  ∧ len [3]%nat h = (Throw "len() requires a list or string argument", h).
Proof.
  intros h.
  destruct len_looks_at_first_argument as (_ & Hlist & Hstring & _ & Hother & _).
  destruct (Hlist h 0%nat [1%nat] [1; 1]%nat eq_refl) as [Hl _].
  pose proof (Hstring h 2%nat [2; 2]%nat "abc" eq_refl) as Hs.
  pose proof (Hother h 3%nat [] (Function "f" 0) eq_refl eq_refl eq_refl) as Ho.
  split; [exact Hl|]. split; [exact Hs | exact Ho].
Defined.

(** C4 as stated fails on a second argument: [len] never looks at the
    argument count beyond "not empty", and two arguments with a String
    first give the String's length. *)
Lemma len_with_two_arguments :
  len [0; 1]%nat [String "hello"; Number 1]
  = (Ok 2%nat, [String "hello"; Number 1; Number 5])
  ∧ fst (len [0; 1]%nat [String "hello"; Number 1])
    ≠ Throw "len() requires at least one argument"
  ∧ fst (len [0; 1]%nat [String "hello"; Number 1])
    ≠ Throw "len() requires a list or string argument".
Proof. repeat split; discriminate. Qed.

(** ** stod and num *)

Lemma separator_facts (c : ascii) :
  separator c = true →
  isspace c = false ∧ digit c = None ∧ xdigit c = None
  ∧ tolower c = code c
  ∧ (code c < 97 ∨ 122 < code c)
  ∧ code c ≠ 43 ∧ code c ≠ 45 ∧ code c ≠ 46 ∧ code c ≠ 48.
Proof.
  destruct c as [[] [] [] [] [] [] [] []]; vm_compute; intros H;
    try discriminate H; repeat split; try reflexivity; try discriminate;
    first [left; reflexivity | right; reflexivity].
Qed.

Section TrailingText.

Variable c : ascii.
Variable t : string.
Hypothesis Hsep : separator c = true.

Let tail := String.String c t.

Lemma skip_space_app (s : string) :
  skip_space (s +:+ tail) = skip_space s +:+ tail.
Proof.
  destruct (separator_facts c Hsep) as (Hsp & _).
  induction s as [|x s IH].
  - unfold tail. simpl. now rewrite Hsp.
  - change (String.String x s +:+ tail) with (String.String x (s +:+ tail)).
    simpl. destruct (isspace x); [exact IH | reflexivity].
Qed.

Lemma take_sign_app (s : string) :
  take_sign (s +:+ tail) = (fst (take_sign s), snd (take_sign s) +:+ tail).
Proof.
  destruct (separator_facts c Hsep) as (_ & _ & _ & _ & _ & H43 & H45 & _).
  destruct s as [|x s].
  - unfold tail. simpl.
    destruct (Z.eqb_spec (code c) 45); [contradiction|].
    destruct (Z.eqb_spec (code c) 43); [contradiction|]. reflexivity.
  - change (String.String x s +:+ tail) with (String.String x (s +:+ tail)).
    simpl. destruct (code x =? 45); [reflexivity|].
    destruct (code x =? 43); reflexivity.
Qed.

Lemma has_word_app (w s : string) :
  lower_word w = true → has_word w (s +:+ tail) = has_word w s.
Proof.
  destruct (separator_facts c Hsep) as (_ & _ & _ & Hlow & Hletter & _).
  revert s. induction w as [|a w IH]; intros s Hw; [now destruct s|].
  simpl in Hw. apply andb_true_iff in Hw as [Ha Hw].
  apply andb_true_iff in Ha as [Ha1 Ha2].
  destruct s as [|x s].
  - unfold tail. simpl. rewrite Hlow.
    destruct (Z.eqb_spec (code a) (code c)); [lia | reflexivity].
  - change (String.String x s +:+ tail) with (String.String x (s +:+ tail)).
    simpl. now rewrite IH.
Qed.

Lemma read_digits_app (dig : ascii → option Z) (base : Z) (s : string)
  (acc count : Z) :
  dig c = None →
  read_digits dig base (s +:+ tail) acc count
  = let '(m, k, r) := read_digits dig base s acc count in (m, k, r +:+ tail).
Proof.
  intros Hdig. revert acc count. induction s as [|x s IH]; intros acc count.
  - unfold tail. simpl. now rewrite Hdig.
  - change (String.String x s +:+ tail) with (String.String x (s +:+ tail)).
    simpl. destruct (dig x); [apply IH | reflexivity].
Qed.

Lemma read_mantissa_app (dig : ascii → option Z) (base : Z) (s : string) :
  dig c = None →
  read_mantissa dig base (s +:+ tail)
  = match read_mantissa dig base s with
    | Some (m, k, r) => Some (m, k, r +:+ tail)
    | None => None
    end.
Proof.
  intros Hdig.
  destruct (separator_facts c Hsep) as (_ & _ & _ & _ & _ & _ & _ & H46 & _).
  unfold read_mantissa. rewrite read_digits_app by assumption.
  destruct (read_digits dig base s 0 0) as [[m1 n1] r1].
  destruct r1 as [|y r2].
  - unfold tail. simpl.
    destruct (Z.eqb_spec (code c) 46); [contradiction|].
    destruct (n1 =? 0); reflexivity.
  - change (String.String y r2 +:+ tail) with (String.String y (r2 +:+ tail)).
    cbn iota. destruct (code y =? 46).
    + rewrite read_digits_app by assumption.
      destruct (read_digits dig base r2 m1 0) as [[m2 n2] r3].
      destruct (n1 + n2 =? 0); reflexivity.
    + destruct (n1 =? 0); reflexivity.
Qed.

Lemma read_exponent_app (marker : Z) (s : string) :
  97 <= marker <= 122 →
  read_exponent marker (s +:+ tail) = read_exponent marker s.
Proof.
  intros Hmarker.
  destruct (separator_facts c Hsep) as (_ & Hdig & _ & Hlow & Hletter & _).
  destruct s as [|x r].
  - unfold tail. simpl. rewrite Hlow.
    destruct (Z.eqb_spec (code c) marker); [lia | reflexivity].
  - change (String.String x r +:+ tail) with (String.String x (r +:+ tail)).
    simpl. destruct (tolower x =? marker); [|reflexivity].
    rewrite take_sign_app. destruct (take_sign r) as [neg r']. cbn [fst snd].
    rewrite read_digits_app by assumption.
    now destruct (read_digits digit 10 r' 0 0) as [[e n] r''].
Qed.

Lemma decimal_app (neg : bool) (s : string) :
  decimal neg (s +:+ tail) = decimal neg s.
Proof.
  destruct (separator_facts c Hsep) as (_ & Hdig & _).
  unfold decimal. rewrite read_mantissa_app by assumption.
  destruct (read_mantissa digit 10 s) as [[[m k] r]|]; [|reflexivity].
  now rewrite read_exponent_app by lia.
Qed.

Lemma hexadecimal_app (neg : bool) (s : string) :
  hexadecimal neg (s +:+ tail) = hexadecimal neg s.
Proof.
  destruct (separator_facts c Hsep)
    as (_ & _ & Hxdig & Hlow & Hletter & _ & _ & _ & H48).
  destruct s as [|z [|x s]].
  - unfold tail. simpl. destruct t; [reflexivity|].
    destruct (Z.eqb_spec (code c) 48); [contradiction | reflexivity].
  - unfold tail. simpl. rewrite Hlow.
    destruct (Z.eqb_spec (code c) 120); [lia|]. now rewrite andb_false_r.
  - change (String.String z (String.String x s) +:+ tail)
      with (String.String z (String.String x (s +:+ tail))).
    simpl. destruct ((code z =? 48) && (tolower x =? 120)); [|reflexivity].
    rewrite read_mantissa_app by assumption.
    destruct (read_mantissa xdigit 16 s) as [[[m k] r]|]; [|reflexivity].
    now rewrite read_exponent_app by lia.
Qed.

(** What follows a separator is never read. *)
Lemma stod_app (s : string) : stod (s +:+ tail) = stod s.
Proof.
  unfold stod. rewrite skip_space_app, take_sign_app.
  destruct (take_sign (skip_space s)) as [neg s']. cbn [fst snd].
  rewrite !has_word_app by reflexivity.
  now rewrite hexadecimal_app, decimal_app.
Qed.

End TrailingText.




(** * Properties of the rest of the runtime *)

(** ** Comparison of doubles *)

Lemma SFcompare_antisym (x y : spec_float) :
  SFcompare y x = option_map CompOpp (SFcompare x y).
Proof.
  destruct x as [sx|sx| |sx mx ex], y as [sy|sy| |sy my ey]; simpl;
    try reflexivity; try (destruct sx; reflexivity);
    try (destruct sy; reflexivity); try (destruct sx, sy; reflexivity).
  assert (Hm : Pos.compare_cont Eq my mx = CompOpp (Pos.compare_cont Eq mx my))
    by (symmetry; apply (Pos.compare_cont_antisym mx my Eq)).
  destruct sx, sy; simpl; try reflexivity;
    rewrite (Z.compare_antisym ex ey); destruct (ex ?= ey); simpl;
    try reflexivity; rewrite Hm; now destruct (Pos.compare_cont Eq mx my).
Qed.

Lemma Prim2SF_nan (a : float) : PrimFloat.is_nan a = true → Prim2SF a = S754_nan.
Proof. intros H. unfold Prim2SF. now rewrite H. Qed.

Lemma Prim2SF_not_nan (a : float) : PrimFloat.is_nan a = false → Prim2SF a ≠ S754_nan.
Proof.
  intros H. unfold Prim2SF. rewrite H.
  destruct (PrimFloat.is_zero a); [discriminate|].
  destruct (PrimFloat.is_infinity a); [discriminate|].
  destruct (Z.frexp a) as [r e].
  destruct (shr_fexp _ _ _ _ _) as [m e'].
  destruct (shr_m m); discriminate.
Qed.

Lemma SFcompare_defined (x y : spec_float) :
  x ≠ S754_nan → y ≠ S754_nan → ∃ c, SFcompare x y = Some c.
Proof.
  intros Hx Hy. destruct x, y; try congruence; simpl; eauto.
Qed.

Lemma leb_ltb_eqb (a b : float) :
  PrimFloat.leb a b = PrimFloat.ltb a b || PrimFloat.eqb a b.
Proof.
  rewrite FloatAxioms.leb_spec, FloatAxioms.ltb_spec, FloatAxioms.eqb_spec. unfold SFleb, SFltb, SFeqb.
  now destruct (SFcompare (Prim2SF a) (Prim2SF b)) as [[| |]|].
Qed.

Lemma compare_with_nan (a b : float) :
  PrimFloat.is_nan a = true ∨ PrimFloat.is_nan b = true →
  PrimFloat.eqb a b = false ∧ PrimFloat.ltb a b = false
  ∧ PrimFloat.ltb b a = false ∧ PrimFloat.leb a b = false
  ∧ PrimFloat.leb b a = false.
Proof.
  intros Hnan. rewrite !FloatAxioms.leb_spec, !FloatAxioms.ltb_spec, FloatAxioms.eqb_spec.
  unfold SFleb, SFltb, SFeqb.
  destruct Hnan as [H|H]; rewrite (Prim2SF_nan _ H); simpl;
    repeat split; try reflexivity; now destruct (Prim2SF _).
Qed.

Lemma compare_trichotomy (a b : float) :
  PrimFloat.is_nan a = false → PrimFloat.is_nan b = false →
  (PrimFloat.ltb a b = true ∧ PrimFloat.eqb a b = false ∧ PrimFloat.ltb b a = false)
  ∨ (PrimFloat.ltb a b = false ∧ PrimFloat.eqb a b = true ∧ PrimFloat.ltb b a = false)
  ∨ (PrimFloat.ltb a b = false ∧ PrimFloat.eqb a b = false ∧ PrimFloat.ltb b a = true).
Proof.
  intros Ha Hb. rewrite !FloatAxioms.ltb_spec, FloatAxioms.eqb_spec. unfold SFltb, SFeqb.
  rewrite (SFcompare_antisym (Prim2SF a) (Prim2SF b)).
  destruct (SFcompare_defined _ _ (Prim2SF_not_nan a Ha) (Prim2SF_not_nan b Hb))
    as [c ->].
  destruct c; simpl; auto.
Qed.

(** ** Number: comparisons *)

Ltac number_receiver Hthis Hother :=
  rewrite (bind_deref _ _ _ _ Hthis); cbn beta iota;
  rewrite (bind_deref _ _ _ _ Hother); cbn [isNumber asNumber];
  rewrite ?bind_lift_Ok.

Lemma value_of_make_shared (m : M ValuePtr) (h : Heap) (d : float) :
  m h = (Ok (length h), h ++ [Number d]) → value_of m h = Some d.
Proof. intros Hm. unfold value_of. now rewrite Hm, make_shared_lookup. Qed.

Lemma one_is_not_zero : 1%float ≠ 0%float.
Proof.
  intros H. apply (f_equal (fun x => PrimFloat.eqb x 0)) in H.
  vm_compute in H. discriminate.
Qed.

Lemma truth_value_cases (b : bool) :
  ((if b then 1%float else 0%float) = 1%float ↔ b = true)
  ∧ ((if b then 1%float else 0%float) = 0%float ↔ b = false).
Proof.
  pose proof one_is_not_zero.
  destruct b; repeat split; intros; congruence.
Qed.

Lemma comparison_values (h : Heap) (this other : ValuePtr) (a b : float) :
  h !! this = Some (Number a) → h !! other = Some (Number b) →
  value_of (comparisonEq this other) h = Some (if PrimFloat.eqb a b then 1 else 0)%float
  ∧ value_of (comparisonNe this other) h
    = Some (if negb (PrimFloat.eqb a b) then 1 else 0)%float
  ∧ value_of (comparisonLt this other) h = Some (if PrimFloat.ltb a b then 1 else 0)%float
  ∧ value_of (comparisonGt this other) h = Some (if PrimFloat.ltb b a then 1 else 0)%float
  ∧ value_of (comparisonLte this other) h = Some (if PrimFloat.leb a b then 1 else 0)%float
  ∧ value_of (comparisonGte this other) h = Some (if PrimFloat.leb b a then 1 else 0)%float.
Proof.
  intros Hthis Hother.
  repeat split; apply value_of_make_shared;
    [unfold comparisonEq, Number_comparisonEq
    |unfold comparisonNe, Number_comparisonNe
    |unfold comparisonLt, Number_comparisonLt
    |unfold comparisonGt, Number_comparisonGt
    |unfold comparisonLte, Number_comparisonLte
    |unfold comparisonGte, Number_comparisonGte];
    number_receiver Hthis Hother; reflexivity.
Qed.

(** X1.  A Number compared with a value of another type: [comparisonEq]
    returns a new Number 0 and [comparisonNe] a new Number 1, and the four
    orderings throw, each its own message, leaving the store as it was. *)
Theorem Number_compared_with_another_type (h : Heap) (this other : ValuePtr)
  (a : float) (x : Value) :
  h !! this = Some (Number a) → h !! other = Some x → isNumber x = false →
  comparisonEq this other h = (Ok (length h), h ++ [Number 0])
  ∧ comparisonNe this other h = (Ok (length h), h ++ [Number 1])
  ∧ comparisonLt this other h
    = (Throw "Less than comparison not supported for this type", h)
  ∧ comparisonGt this other h
    = (Throw "Greater than comparison not supported for this type", h)
  ∧ comparisonLte this other h
    = (Throw "Less than or equal comparison not supported for this type", h)
  ∧ comparisonGte this other h
    = (Throw "Greater than or equal comparison not supported for this type", h).
Proof.
  intros Hthis Hother Hx.
  repeat split;
    [unfold comparisonEq, Number_comparisonEq
    |unfold comparisonNe, Number_comparisonNe
    |unfold comparisonLt, Number_comparisonLt
    |unfold comparisonGt, Number_comparisonGt
    |unfold comparisonLte, Number_comparisonLte
    |unfold comparisonGte, Number_comparisonGte];
    rewrite (bind_deref _ _ _ _ Hthis); cbn beta iota;
    rewrite (bind_deref _ _ _ _ Hother), Hx; reflexivity.
Qed.

Lemma Number_compared_with_another_type_witness :
  let h := [Number 2; String "2"] in
  comparisonEq 0 1 h = (Ok 2%nat, h ++ [Number 0])
  ∧ comparisonLt 0 1 h = (Throw "Less than comparison not supported for this type", h).
Proof.
  intros h.
  destruct (Number_compared_with_another_type h 0%nat 1%nat 2%float (String "2")
              eq_refl eq_refl eq_refl) as (Heq & _ & Hlt & _).
  split; [exact Heq | exact Hlt].
Defined.

(** X2.  Two Numbers compared: every comparison returns 1 or 0;
    [comparisonLte] is 1 exactly when [comparisonLt] or [comparisonEq] is,
    [comparisonGte] exactly when [comparisonGt] or [comparisonEq] is, and
    [comparisonNe] exactly when [comparisonEq] is 0.  With a NaN on either
    side [comparisonNe] is 1 and the other five are 0, so a NaN is not
    equal to itself; without a NaN exactly one of [comparisonLt],
    [comparisonEq], [comparisonGt] is 1. *)
Theorem Number_comparisons_agree (h : Heap) (this other : ValuePtr) (a b : float) :
  h !! this = Some (Number a) → h !! other = Some (Number b) →
  let eq := value_of (comparisonEq this other) h in
  let ne := value_of (comparisonNe this other) h in
  let lt := value_of (comparisonLt this other) h in
  let gt := value_of (comparisonGt this other) h in
  let le := value_of (comparisonLte this other) h in
  let ge := value_of (comparisonGte this other) h in
  Forall (fun v => v = Some 1%float ∨ v = Some 0%float) [eq; ne; lt; gt; le; ge]
  ∧ (le = Some 1%float ↔ lt = Some 1%float ∨ eq = Some 1%float)
  ∧ (ge = Some 1%float ↔ gt = Some 1%float ∨ eq = Some 1%float)
  ∧ (ne = Some 1%float ↔ eq = Some 0%float)
  ∧ (PrimFloat.is_nan a = true ∨ PrimFloat.is_nan b = true →
     ne = Some 1%float
     ∧ Forall (fun v => v = Some 0%float) [eq; lt; gt; le; ge])
  ∧ (PrimFloat.is_nan a = false → PrimFloat.is_nan b = false →
     (lt = Some 1%float ∧ eq = Some 0%float ∧ gt = Some 0%float)
     ∨ (lt = Some 0%float ∧ eq = Some 1%float ∧ gt = Some 0%float)
     ∨ (lt = Some 0%float ∧ eq = Some 0%float ∧ gt = Some 1%float)).
Proof.
  intros Hthis Hother eq ne lt gt le ge.
  destruct (comparison_values h this other a b Hthis Hother)
    as (Heq & Hne & Hlt & Hgt & Hle & Hge).
  subst eq ne lt gt le ge. rewrite Heq, Hne, Hlt, Hgt, Hle, Hge.
  rewrite (leb_ltb_eqb a b), (leb_ltb_eqb b a).
  assert (Hsym : PrimFloat.eqb b a = PrimFloat.eqb a b).
  { rewrite !FloatAxioms.eqb_spec. unfold SFeqb.
    rewrite (SFcompare_antisym (Prim2SF a) (Prim2SF b)).
    now destruct (SFcompare (Prim2SF a) (Prim2SF b)) as [[| |]|]. }
  rewrite Hsym. pose proof one_is_not_zero as H10.
  split; [|split; [|split; [|split; [|split]]]].
  - destruct (PrimFloat.ltb a b), (PrimFloat.eqb a b), (PrimFloat.ltb b a); simpl;
      repeat (apply Forall_cons_2; [auto|]); apply Forall_nil_2.
  - destruct (PrimFloat.ltb a b), (PrimFloat.eqb a b); simpl;
      split; intros; try tauto; try congruence; destruct H; congruence.
  - destruct (PrimFloat.ltb b a), (PrimFloat.eqb a b); simpl;
      split; intros; try tauto; try congruence; destruct H; congruence.
  - destruct (PrimFloat.eqb a b); simpl; split; intros; congruence.
  - intros Hnan.
    destruct (compare_with_nan a b Hnan) as (-> & -> & -> & _).
    simpl. split; [reflexivity|].
    repeat (apply Forall_cons_2; [reflexivity|]). apply Forall_nil_2.
  - intros Ha Hb.
    destruct (compare_trichotomy a b Ha Hb) as [(-> & -> & ->)|[(-> & -> & ->)|(-> & -> & ->)]];
      auto.
Qed.

Lemma Number_comparisons_agree_witness :
  let h := [Number 1; Number nan] in
  value_of (comparisonEq 1 1) h = Some 0%float
  ∧ value_of (comparisonNe 1 1) h = Some 1%float
  ∧ (value_of (comparisonLte 0 0) h = Some 1%float
     ↔ value_of (comparisonLt 0 0) h = Some 1%float
       ∨ value_of (comparisonEq 0 0) h = Some 1%float).
Proof.
  intros h.
  destruct (Number_comparisons_agree h 1%nat 1%nat nan nan eq_refl eq_refl)
    as (_ & _ & _ & _ & Hnan & _).
  destruct (Number_comparisons_agree h 0%nat 0%nat 1%float 1%float eq_refl eq_refl)
    as (_ & Hle & _).
  destruct (Hnan (or_introl eq_refl)) as [Hne Hzero].
  split; [exact (Forall_inv Hzero)|]. split; [exact Hne | exact Hle].
Defined.

(** ** Truth values and logic *)

Lemma SFeqb_zero (x : spec_float) :
  SFeqb x (S754_zero false) = true ↔ ∃ s, x = S754_zero s.
Proof.
  unfold SFeqb. destruct x as [s|s| |s m e]; simpl; split;
    try discriminate; try (intros [s' [=]]); eauto;
    destruct s; discriminate.
Qed.

(** X17.  [isTrue] of a Number is false exactly when the Number is a zero,
    of either sign; every other Number, a NaN included, is true. *)
Lemma Number_isTrue_false (a : float) :
  Number_isTrue a = false ↔ a = 0%float ∨ a = (-0)%float.
Proof.
  unfold Number_isTrue. rewrite negb_false_iff, FloatAxioms.eqb_spec.
  change (Prim2SF 0) with (S754_zero false). rewrite SFeqb_zero. split.
  - intros [s Hs]. rewrite <- (SF2Prim_Prim2SF a), Hs. destruct s; auto.
  - intros [-> | ->]; eexists; reflexivity.
Qed.

Lemma truth_of_flag (h : Heap) (b : bool) :
  truth (h ++ [Number (if b then 1 else 0)]) (length h) = Some b.
Proof. unfold truth. rewrite make_shared_lookup. now destruct b. Qed.

Lemma extends_refl (h : Heap) : extends h h.
Proof. exists []. now rewrite app_nil_r. Qed.

Lemma extends_one (h : Heap) (v : Value) : extends h (h ++ [v]).
Proof. now exists [v]. Qed.

Lemma extends_trans (h1 h2 h3 : Heap) :
  extends h1 h2 → extends h2 h3 → extends h1 h3.
Proof. intros [l ->] [l' ->]. exists (l ++ l'). now rewrite app_assoc. Qed.

Lemma extends_lookup (h h' : Heap) (p : ValuePtr) (v : Value) :
  extends h h' → h !! p = Some v → h' !! p = Some v.
Proof. intros [l ->] Hp. now apply lookup_app_l_Some. Qed.

Lemma extends_length (h h' : Heap) : extends h h' → (length h ≤ length h')%nat.
Proof. intros [l ->]. rewrite length_app. lia. Qed.

Lemma andedBy_Number (h : Heap) (this other : ValuePtr) (a : float) (x : Value) :
  h !! this = Some (Number a) → h !! other = Some x →
  andedBy this other h
  = (Ok (length h), h ++ [Number (if Number_isTrue a && isTrue x then 1 else 0)]).
Proof.
  intros Hthis Hother. unfold andedBy, Number_andedBy.
  rewrite (bind_deref _ _ _ _ Hthis). cbn beta iota.
  destruct (Number_isTrue a); [|reflexivity].
  unfold bind at 1. now rewrite (bind_deref _ _ _ _ Hother).
Qed.

Lemma oredBy_Number (h : Heap) (this other : ValuePtr) (a : float) (x : Value) :
  h !! this = Some (Number a) → h !! other = Some x →
  oredBy this other h
  = (Ok (length h), h ++ [Number (if Number_isTrue a || isTrue x then 1 else 0)]).
Proof.
  intros Hthis Hother. unfold oredBy, Number_oredBy.
  rewrite (bind_deref _ _ _ _ Hthis). cbn beta iota.
  destruct (Number_isTrue a); [reflexivity|].
  unfold bind at 1. now rewrite (bind_deref _ _ _ _ Hother).
Qed.

Lemma notted_Number (h : Heap) (this : ValuePtr) (a : float) :
  h !! this = Some (Number a) →
  notted this h = (Ok (length h), h ++ [Number (if negb (Number_isTrue a) then 1 else 0)]).
Proof.
  intros Hthis. unfold notted, Number_notted.
  rewrite (bind_deref _ _ _ _ Hthis). cbn beta iota.
  now destruct (Number_isTrue a).
Qed.

(** X3.  The logic of a Number never throws, whatever the type of the
    other operand: [andedBy], [oredBy] and [notted] return a new Number,
    1 or 0, that is true exactly when both operands are, when one is, and
    when the receiver is not; the store only gains that Number.  Negating
    twice gives back the truth value of the receiver, and a receiver that
    decides ([0 and], [1 or]) gives the result without the other operand
    being looked at. *)
Theorem Number_logic_follows_truth (h : Heap) (this other : ValuePtr) (a : float)
  (x : Value) :
  h !! this = Some (Number a) → h !! other = Some x →
  (∃ flag : bool, andedBy this other h = (Ok (length h), h ++ [Number (if flag then 1 else 0)])
           ∧ truth (h ++ [Number (if flag then 1 else 0)]) (length h)
             = Some (isTrue (Number a) && isTrue x))
  ∧ (∃ flag : bool, oredBy this other h = (Ok (length h), h ++ [Number (if flag then 1 else 0)])
             ∧ truth (h ++ [Number (if flag then 1 else 0)]) (length h)
               = Some (isTrue (Number a) || isTrue x))
  ∧ (∃ r1 h1 r2 h2,
       notted this h = (Ok r1, h1) ∧ notted r1 h1 = (Ok r2, h2)
       ∧ truth h1 r1 = Some (negb (isTrue (Number a)))
       ∧ truth h2 r2 = truth h this
       ∧ extends h h2)
  ∧ (∀ dangling : ValuePtr,
       (isTrue (Number a) = false →
        andedBy this dangling h = (Ok (length h), h ++ [Number 0]))
       ∧ (isTrue (Number a) = true →
          oredBy this dangling h = (Ok (length h), h ++ [Number 1]))).
Proof.
  intros Hthis Hother. split; [|split; [|split]].
  - exists (Number_isTrue a && isTrue x).
    split; [now apply andedBy_Number | apply truth_of_flag].
  - exists (Number_isTrue a || isTrue x).
    split; [now apply oredBy_Number | apply truth_of_flag].
  - set (f1 := negb (Number_isTrue a)).
    exists (length h), (h ++ [Number (if f1 then 1 else 0)]).
    set (h1 := h ++ [Number (if f1 then 1 else 0)]).
    set (v1 := (if f1 then 1 else 0)%float).
    exists (length h1), (h1 ++ [Number (if negb (Number_isTrue v1) then 1 else 0)]).
    assert (Hr1 : h1 !! length h = Some (Number v1)) by apply make_shared_lookup.
    split; [now apply notted_Number|].
    split; [now apply notted_Number|].
    split; [apply truth_of_flag|]. split.
    + rewrite truth_of_flag. unfold truth. rewrite Hthis. simpl.
      subst v1 f1. now destruct (Number_isTrue a).
    + apply extends_trans with h1; apply extends_one.
  - intros dangling. simpl. split; intros Ha.
    + unfold andedBy, Number_andedBy.
      rewrite (bind_deref _ _ _ _ Hthis). cbn beta iota. now rewrite Ha.
    + unfold oredBy, Number_oredBy.
      rewrite (bind_deref _ _ _ _ Hthis). cbn beta iota. now rewrite Ha.
Qed.

Lemma Number_logic_follows_truth_witness :
  let h := [Number nan; List []] in
  andedBy 0 1 h = (Ok 2%nat, h ++ [Number 0])
  ∧ oredBy 0 1 h = (Ok 2%nat, h ++ [Number 1])
  ∧ oredBy 0 7 h = (Ok 2%nat, h ++ [Number 1]).
Proof.
  intros h.
  destruct (Number_logic_follows_truth h 0%nat 1%nat nan (List []) eq_refl eq_refl)
    as ((f1 & Hand & Htand) & (f2 & Hor & Htor) & _ & Hshort).
  rewrite truth_of_flag in Htand, Htor.
  injection Htand as ->. injection Htor as ->.
  split; [exact Hand|]. split; [exact Hor|].
  exact (proj2 (Hshort 7%nat) eq_refl).
Defined.

(** ** Arithmetic and the types of the operands *)

Section Operators.

Variable pow : float → float → float.
Variable to_string : float → string.

(** X4.  [addedTo], [subbedBy] and [powedBy] of a Number with a Number
    return a new Number holding the sum, the difference, the power, and
    leave every object alone; with an operand of any other type they
    throw "Addition", "Subtraction", "Power operation not supported for
    this type", and [multedBy] with a List or a Function throws
    "Multiplication not supported for this type"; a throw leaves the store
    as it was. *)
Theorem Number_arithmetic_by_operand_type (h : Heap) (this other : ValuePtr)
  (a : float) (x : Value) :
  h !! this = Some (Number a) → h !! other = Some x →
  (∀ b, x = Number b →
     addedTo to_string this other h = (Ok (length h), h ++ [Number (a + b)])
     ∧ subbedBy this other h = (Ok (length h), h ++ [Number (a - b)])
     ∧ powedBy pow this other h = (Ok (length h), h ++ [Number (pow a b)]))
  ∧ (isNumber x = false →
     addedTo to_string this other h = (Throw "Addition not supported for this type", h)
     ∧ subbedBy this other h = (Throw "Subtraction not supported for this type", h)
     ∧ powedBy pow this other h
       = (Throw "Power operation not supported for this type", h)
     ∧ (isString x = false →
        multedBy this other h = (Throw "Multiplication not supported for this type", h))).
Proof.
  intros Hthis Hother. split.
  - intros b ->. repeat split;
      [unfold addedTo, Number_addedTo
      |unfold subbedBy, Number_subbedBy
      |unfold powedBy, Number_powedBy];
      number_receiver Hthis Hother; reflexivity.
  - intros Hx. repeat split;
      [unfold addedTo, Number_addedTo
      |unfold subbedBy, Number_subbedBy
      |unfold powedBy, Number_powedBy
      |intros Hs; unfold multedBy, Number_multedBy];
      rewrite (bind_deref _ _ _ _ Hthis); cbn beta iota;
      rewrite (bind_deref _ _ _ _ Hother), Hx; try rewrite Hs; reflexivity.
Qed.

(** X5.  Only a Number has the full set of operators.  On a String, a
    List or a Function receiver, [subbedBy], [divedBy], [powedBy], the six
    comparisons ([comparisonEq] of two Strings included), [andedBy],
    [oredBy] and [notted] throw the message of the operation, whatever the
    other operand is, and the store stays as it was; on a List or a
    Function [addedTo] and [multedBy] throw too. *)
Theorem operators_of_other_receivers (h : Heap) (this other : ValuePtr) (v : Value) :
  h !! this = Some v → isNumber v = false →
  subbedBy this other h = (Throw "Subtraction not supported for this type", h)
  ∧ divedBy this other h = (Throw "Division not supported for this type", h)
  ∧ powedBy pow this other h = (Throw "Power operation not supported for this type", h)
  ∧ comparisonEq this other h
    = (Throw "Equality comparison not supported for this type", h)
  ∧ comparisonNe this other h
    = (Throw "Inequality comparison not supported for this type", h)
  ∧ comparisonLt this other h
    = (Throw "Less than comparison not supported for this type", h)
  ∧ comparisonGt this other h
    = (Throw "Greater than comparison not supported for this type", h)
  ∧ comparisonLte this other h
    = (Throw "Less than or equal comparison not supported for this type", h)
  ∧ comparisonGte this other h
    = (Throw "Greater than or equal comparison not supported for this type", h)
  ∧ andedBy this other h = (Throw "Logical AND not supported for this type", h)
  ∧ oredBy this other h = (Throw "Logical OR not supported for this type", h)
  ∧ notted this h = (Throw "Logical NOT not supported for this type", h)
  ∧ (isString v = false →
     addedTo to_string this other h = (Throw "Addition not supported for this type", h)
     ∧ multedBy this other h
       = (Throw "Multiplication not supported for this type", h)).
Proof.
  intros Hthis Hv.
  repeat split; try (intros Hs; split);
    cbv beta delta [subbedBy divedBy powedBy comparisonEq comparisonNe comparisonLt
               comparisonGt comparisonLte comparisonGte andedBy oredBy notted
               addedTo multedBy];
    rewrite (bind_deref _ _ _ _ Hthis);
    destruct v; try discriminate; reflexivity.
Qed.

End Operators.

Lemma Number_arithmetic_by_operand_type_witness :
  let h := [Number 1.5; Number 2; String "s"; List []] in
  subbedBy 0 1 h = (Ok 4%nat, h ++ [Number (-0.5)])
  ∧ subbedBy 0 2 h = (Throw "Subtraction not supported for this type", h)
  ∧ multedBy 0 3 h = (Throw "Multiplication not supported for this type", h).
Proof.
  intros h.
  destruct (Number_arithmetic_by_operand_type (fun a _ => a) (fun _ => ""%string)
              h 0%nat 1%nat 1.5%float (Number 2) eq_refl eq_refl) as [Hnum _].
  destruct (Number_arithmetic_by_operand_type (fun a _ => a) (fun _ => ""%string)
              h 0%nat 2%nat 1.5%float (String "s") eq_refl eq_refl) as [_ Hstr].
  destruct (Number_arithmetic_by_operand_type (fun a _ => a) (fun _ => ""%string)
              h 0%nat 3%nat 1.5%float (List []) eq_refl eq_refl) as [_ Hlist].
  destruct (Hnum 2%float eq_refl) as (_ & Hsub & _).
  destruct (Hstr eq_refl) as (_ & Hsub' & _).
  destruct (Hlist eq_refl) as (_ & _ & _ & Hmul).
  split; [exact Hsub|]. split; [exact Hsub' | exact (Hmul eq_refl)].
Defined.

Lemma operators_of_other_receivers_witness :
  let h := [String "a"; String "a"; List []] in
  comparisonEq 0 1 h = (Throw "Equality comparison not supported for this type", h)
  ∧ multedBy 2 0 h = (Throw "Multiplication not supported for this type", h).
Proof.
  intros h.
  destruct (operators_of_other_receivers (fun a _ => a) (fun _ => ""%string)
              h 0%nat 1%nat (String "a") eq_refl eq_refl)
    as (_ & _ & _ & Heq & _).
  destruct (operators_of_other_receivers (fun a _ => a) (fun _ => ""%string)
              h 2%nat 0%nat (List []) eq_refl eq_refl)
    as (_ & _ & _ & _ & _ & _ & _ & _ & _ & _ & _ & _ & Hrest).
  split; [exact Heq | exact (proj2 (Hrest eq_refl))].
Defined.

(** ** Values that are not nested in a cycle *)

Lemma nested_dec (h : Heap) (n : nat) (p : ValuePtr) :
  {nested h n p} + {¬ nested h n p}.
Proof.
  revert p. induction n as [|n IH]; intros p; simpl; [right; tauto|].
  destruct (h !! p) as [[d|s|es|nm f]|]; try (left; exact I); [|right; tauto].
  induction es as [|e es IHes]; [left; constructor|].
  destruct (IH e) as [He|He]; [|right; intros HF; apply He; now inversion HF].
  destruct IHes as [Hes|Hes]; [left; now constructor|].
  right; intros HF; apply Hes; now inversion HF.
Qed.

Lemma nested_S (h : Heap) (n : nat) (p : ValuePtr) :
  nested h n p → nested h (S n) p.
Proof.
  revert p. induction n as [|n IH]; intros p; [intros []|].
  intros Hn. simpl in Hn. change (nested h (S (S n)) p) with
    (match h !! p with
     | Some (List es) => Forall (nested h (S n)) es
     | Some _ => True
     | None => False
     end).
  destruct (h !! p) as [[d|s|es|nm f]|]; try exact I; [|exact Hn].
  eapply Forall_impl; [exact Hn | exact IH].
Qed.

Lemma nested_le (h : Heap) (n m : nat) (p : ValuePtr) :
  (n ≤ m)%nat → nested h n p → nested h m p.
Proof. induction 1; [trivial | intros; now apply nested_S, IHle]. Qed.

Lemma nested_live (h : Heap) (n : nat) (p : ValuePtr) :
  nested h n p → (p < length h)%nat.
Proof.
  destruct n as [|n]; simpl; [intros []|].
  destruct (h !! p) eqn:Hp; [|intros []].
  intros _. now apply lookup_lt_Some in Hp.
Qed.

(** A value of nesting exactly [n + 2] holds one of nesting exactly
    [n + 1]. *)
Lemma nested_descend (h : Heap) (n : nat) (p : ValuePtr) :
  nested h (S (S n)) p → ¬ nested h (S n) p →
  ∃ e, nested h (S n) e ∧ ¬ nested h n e.
Proof.
  intros Hp Hnot.
  change (nested h (S (S n)) p) with
    (match h !! p with
     | Some (List es) => Forall (nested h (S n)) es
     | Some _ => True
     | None => False
     end) in Hp.
  change (nested h (S n) p) with
    (match h !! p with
     | Some (List es) => Forall (nested h n) es
     | Some _ => True
     | None => False
     end) in Hnot.
  destruct (h !! p) as [[d|s|es|nm f]|]; try tauto.
  induction es as [|e es IH]; [exfalso; apply Hnot; constructor|].
  inversion Hp as [|? ? He Hes]; subst.
  destruct (nested_dec h n e) as [Hin|Hout]; [|now exists e].
  apply IH; [assumption|]. intros HF. apply Hnot. now constructor.
Qed.

(** Below a value of nesting exactly [n + 1] there is one value of each
    smaller nesting: [n + 1] different objects. *)
Lemma nested_chain (h : Heap) (n : nat) :
  (∃ p, nested h (S n) p ∧ ¬ nested h n p) →
  ∃ qs : list ValuePtr,
    length qs = S n ∧ NoDup qs
    ∧ ∀ i q, qs !! i = Some q → nested h (S i) q ∧ ¬ nested h i q.
Proof.
  induction n as [|n IH]; intros [p [Hp Hnot]].
  - exists [p]. split; [reflexivity|]. split; [apply NoDup_singleton|].
    intros [|i] q Hq; simpl in Hq; [|now rewrite lookup_nil in Hq].
    injection Hq as <-. now split.
  - destruct (IH (nested_descend h n p Hp Hnot)) as (qs & Hlen & Hdup & Hqs).
    exists (qs ++ [p]). split; [rewrite length_app, Hlen; simpl; lia|]. split.
    + apply NoDup_app. split; [assumption|]. split; [|apply NoDup_singleton].
      intros q Hq Hq'. apply list_elem_of_singleton in Hq'. subst q.
      apply list_elem_of_lookup in Hq as [i Hi].
      pose proof (lookup_lt_Some _ _ _ Hi) as Hlt.
      destruct (Hqs i p Hi) as [Hin _].
      apply Hnot. apply nested_le with (S i); [lia | assumption].
    + intros i q Hi. apply lookup_app_Some in Hi as [Hi|[Hge Hi]]; [now apply Hqs|].
      rewrite Hlen in Hge, Hi.
      destruct (i - S n)%nat as [|k] eqn:Hk; simpl in Hi;
        [|now rewrite lookup_nil in Hi].
      injection Hi as <-. replace i with (S n) by lia. now split.
Qed.

Lemma nested_least (h : Heap) (n m : nat) (p : ValuePtr) :
  nested h n p → ¬ nested h m p →
  ∃ j, (m ≤ j)%nat ∧ nested h (S j) p ∧ ¬ nested h j p.
Proof.
  induction n as [|n IH]; [intros []|]. intros Hn Hm.
  destruct (nested_dec h n p) as [Hin|Hout]; [now apply IH|].
  exists n. split; [|now split].
  destruct (Nat.le_gt_cases m n) as [Hle|Hgt]; [assumption|].
  exfalso. apply Hm. apply nested_le with (S n); [lia | assumption].
Qed.

(** Lists cannot nest deeper than there are objects. *)
Lemma nested_within (h : Heap) (n : nat) (p : ValuePtr) :
  nested h n p → nested h (length h) p.
Proof.
  intros Hn. destruct (nested_dec h (length h) p) as [Hin|Hout]; [assumption|].
  exfalso.
  destruct (nested_least h n (length h) p Hn Hout) as (j & Hj & Hp & Hnot).
  destruct (nested_chain h j) as (qs & Hlen & Hdup & Hqs); [now exists p|].
  assert (Hincl : qs ⊆ seq 0 (length h)).
  { intros q Hq. apply list_elem_of_lookup in Hq as [i Hi].
    destruct (Hqs i q Hi) as [Hlive _]. apply nested_live in Hlive.
    apply elem_of_seq. lia. }
  pose proof (submseteq_length _ _ (NoDup_submseteq _ _ Hdup Hincl)) as Hle.
  rewrite length_seq, Hlen in Hle. lia.
Qed.

Lemma finite_nested (h : Heap) (p : ValuePtr) :
  finite h p ↔ nested h (length h) p.
Proof. split; [intros [n Hn]; now apply nested_within with n | intros H; now exists (length h)]. Qed.

(** ** toString *)

Section Printing.

Variable to_string : float → string.

Lemma toString_loop_ext (ts1 ts2 : ValuePtr → Result string) (es : list ValuePtr)
  (i : nat) (r : string) :
  Forall (fun e => ts1 e = ts2 e) es →
  toString_loop ts1 es i r = toString_loop ts2 es i r.
Proof.
  intros HF. revert i r. induction HF as [|e es He _ IH]; intros i r; simpl;
    [reflexivity|].
  rewrite He. destruct (ts2 e); [apply IH | reflexivity..].
Qed.

(** With fuel for its nesting a value prints the same with any more. *)
Lemma toString_from_fuel (h : Heap) (n fuel : nat) (p : ValuePtr) :
  nested h n p → (n ≤ fuel)%nat →
  toString_from to_string fuel h p = toString_from to_string n h p.
Proof.
  revert fuel p. induction n as [|n IH]; intros fuel p; [intros []|].
  intros Hn Hle. destruct fuel as [|fuel]; [lia|]. simpl in *.
  destruct (h !! p) as [[d|s|es|nm f]|]; try reflexivity.
  rewrite (toString_loop_ext (toString_from to_string fuel h)
             (toString_from to_string n h) es 0 "["); [reflexivity|].
  eapply Forall_impl; [exact Hn|]. intros e He. apply IH; [assumption | lia].
Qed.

Lemma toString_loop_joined (ts : ValuePtr → Result string) (es : list ValuePtr)
  (strs : list string) (i : nat) (r : string) :
  Forall2 (fun e s => ts e = Ok s) es strs →
  toString_loop ts es i r
  = Ok (r +:+ (match strs with
               | [] => ""
               | _ :: _ => if (0 <? i)%nat then ", " else ""
               end) +:+ String.concat ", " strs).
Proof.
  intros HF. revert i r. induction HF as [|e s es strs He _ IH]; intros i r.
  - simpl. now rewrite !string_app_nil_r.
  - cbn [toString_loop]. rewrite He, IH. f_equal.
    change (0 <? S i)%nat with true. cbn iota.
    destruct strs as [|s' strs].
    + cbn [String.concat]. rewrite !string_app_nil_r.
      destruct (0 <? i)%nat; now rewrite ?string_app_assoc, ?string_app_nil_r.
    + change (String.concat ", " (s :: s' :: strs))
        with (s +:+ ", " +:+ String.concat ", " (s' :: strs)).
      destruct (0 <? i)%nat; now rewrite ?string_app_assoc, ?string_app_nil_r.
Qed.

Lemma Forall_Forall2_exists {A B} (P : A → B → Prop) (l : list A) :
  Forall (fun a => ∃ b, P a b) l → ∃ l', Forall2 P l l'.
Proof.
  induction 1 as [|a l [b Hb] _ [l' IH]]; [exists []; constructor|].
  exists (b :: l'). now constructor.
Qed.

Lemma Forall2_guarded {A B} (P : A → Prop) (Q R : A → B → Prop) (l : list A)
  (l' : list B) :
  Forall P l → Forall2 Q l l' → (∀ a b, P a → Q a b → R a b) → Forall2 R l l'.
Proof.
  intros HP HQ HR. induction HQ as [|a b l l' Hab _ IH]; [constructor|].
  inversion HP; subst. constructor; auto.
Qed.

Lemma toString_from_returns (h : Heap) (n : nat) (p : ValuePtr) :
  nested h n p → ∃ s, toString_from to_string n h p = Ok s.
Proof.
  revert p. induction n as [|n IH]; intros p; [intros []|].
  simpl. destruct (h !! p) as [[d|s|es|nm f]|];
    try (intros _; eexists; reflexivity); [|intros []].
  intros Hes.
  destruct (Forall_Forall2_exists
              (fun e s => toString_from to_string n h e = Ok s) es) as [strs Hstrs].
  { eapply Forall_impl; [exact Hes | exact IH]. }
  rewrite (toString_loop_joined _ es strs 0 "[" Hstrs). eauto.
Qed.

(** [toString] of a value that is not nested in a cycle returns, and the
    store is as it was. *)
Lemma toString_returns (h : Heap) (p : ValuePtr) :
  finite h p → ∃ s, toString to_string p h = (Ok s, h).
Proof.
  intros Hfin. apply finite_nested in Hfin. unfold toString.
  destruct (toString_from_returns h (length h) p Hfin) as [s Hs].
  exists s. now rewrite Hs.
Qed.

(** X6.  [toString] of a value whose Lists are not nested in a cycle
    returns, and leaves the store as it was: a String gives its text, a
    Function "<function NAME>", a Number what [std::to_string] gives, and
    a List "[" and "]" around the printouts of its elements, in order,
    with ", " between them ("[]" for the empty List). *)
Theorem toString_prints (h : Heap) (p : ValuePtr) :
  finite h p →
  ∃ s, toString to_string p h = (Ok s, h)
       ∧ match h !! p with
         | Some (Number d) => s = to_string d
         | Some (String t) => s = t
         | Some (Function name _) => s = "<function " +:+ name +:+ ">"
         | Some (List es) =>
             ∃ strs, Forall2 (fun e t => toString to_string e h = (Ok t, h)) es strs
                     ∧ s = "[" +:+ String.concat ", " strs +:+ "]"
         | None => False
         end.
Proof.
  intros Hfin. apply finite_nested in Hfin. unfold toString.
  destruct (length h) as [|n] eqn:Hlen; [destruct Hfin|].
  cbn [nested toString_from] in *.
  destruct (h !! p) as [[d|s|es|nm f]|]; try (eexists; split; reflexivity);
    [|destruct Hfin].
  destruct (Forall_Forall2_exists
              (fun e s => toString_from to_string n h e = Ok s) es) as [strs Hstrs].
  { eapply Forall_impl; [exact Hfin | apply toString_from_returns]. }
  rewrite (toString_loop_joined _ es strs 0 "[" Hstrs).
  eexists. split; [reflexivity|]. exists strs. split.
  - eapply Forall2_guarded; [exact Hfin | exact Hstrs|].
    intros e t He Ht. cbv beta in Ht. f_equal. rewrite <- Ht.
    exact (toString_from_fuel h n (S n) e He ltac:(lia)).
  - rewrite string_app_assoc. f_equal. now destruct strs.
Qed.

Lemma bind_toString {B} (p : ValuePtr) (t : string) (k : string → M B) (h : Heap) :
  toString to_string p h = (Ok t, h) → bind (toString to_string p) k h = k t h.
Proof. intros Hp. unfold bind. now rewrite Hp. Qed.

Lemma toString_of_String (h : Heap) (p : ValuePtr) (t : string) :
  h !! p = Some (String t) → toString to_string p h = (Ok t, h).
Proof.
  intros Hp. unfold toString. pose proof (lookup_lt_Some _ _ _ Hp) as Hlt.
  destruct (length h); [lia|]. simpl. now rewrite Hp.
Qed.

(** X7.  [addedTo] of a String never throws: for every other operand that
    is not nested in a cycle, a String or not, it returns a new String,
    the receiver's text followed by [toString] of the operand, and
    changes no object. *)
Theorem String_addedTo_appends_toString (h : Heap) (this other : ValuePtr)
  (a : string) :
  h !! this = Some (String a) → finite h other →
  ∃ s, toString to_string other h = (Ok s, h)
       ∧ addedTo to_string this other h = (Ok (length h), h ++ [String (a +:+ s)]).
Proof.
  intros Hthis Hfin.
  destruct (toString_returns h other Hfin) as (s & Hs).
  exists s. split; [exact Hs|].
  unfold addedTo, String_addedTo. rewrite (bind_deref _ _ _ _ Hthis). cbn beta iota.
  apply finite_nested, nested_live, lookup_lt_is_Some in Hfin.
  destruct Hfin as [x Hother]. rewrite (bind_deref _ _ _ _ Hother).
  destruct x as [d|t|es|nm f]; cbn [isString asString];
    rewrite ?bind_lift_Ok, ?(bind_toString _ _ _ _ Hs); try reflexivity.
  rewrite (toString_of_String h other t Hother) in Hs. now injection Hs as ->.
Qed.

(** X8.  [str] with no argument returns a new empty String; with
    arguments it returns a new String holding [toString] of the first
    (the others are not looked at) and changes no object.  Applied to its
    own result it gives a String of the same text, and [len] of the
    result is the length of that text. *)
Theorem str_is_toString :
  (∀ h : Heap, str to_string [] h = (Ok (length h), h ++ [String ""]))
  ∧ (∀ (h : Heap) (a : ValuePtr) (rest : list ValuePtr),
       finite h a →
       ∃ s, toString to_string a h = (Ok s, h)
            ∧ str to_string (a :: rest) h = (Ok (length h), h ++ [String s])
            ∧ str to_string [length h] (h ++ [String s])
              = (Ok (S (length h)), (h ++ [String s]) ++ [String s])
            ∧ len [length h] (h ++ [String s])
              = (Ok (S (length h)),
                 (h ++ [String s])
                 ++ [Number (Z_to_double (to_size_t (Z.of_nat (String.length s))))])).
Proof.
  split; [reflexivity|]. intros h a rest Hfin.
  destruct (toString_returns h a Hfin) as (s & Hs).
  assert (Hnew : (h ++ [String s]) !! length h = Some (String s))
    by apply make_shared_lookup.
  assert (Hlen : length (h ++ [String s]) = S (length h))
    by (rewrite length_app; simpl; lia).
  exists s. split; [exact Hs|]. split; [|split].
  - unfold str. change (at_ (a :: rest) 0) with (@ret ValuePtr a).
    now rewrite bind_ret, (bind_toString _ _ _ _ Hs).
  - unfold str. change (at_ [length h] 0) with (@ret ValuePtr (length h)).
    rewrite bind_ret, (bind_toString _ s _ _ (toString_of_String _ _ _ Hnew)).
    unfold make_shared. now rewrite Hlen.
  - unfold len. change (at_ [length h] 0) with (@ret ValuePtr (length h)).
    rewrite bind_ret, (bind_deref _ _ _ _ Hnew). cbn [isList isString asString].
    rewrite bind_lift_Ok. unfold make_shared. now rewrite Hlen.
Qed.

End Printing.

(** ** copy *)

Lemma nested_extends (h h' : Heap) (n : nat) (p : ValuePtr) :
  extends h h' → nested h n p → nested h' n p.
Proof.
  intros Hext. revert p. induction n as [|n IH]; intros p; [intros []|].
  simpl. destruct (h !! p) as [v|] eqn:Hp; [|intros []].
  rewrite (extends_lookup h h' p v Hext Hp).
  destruct v; trivial. intros Hes. eapply Forall_impl; [exact Hes | exact IH].
Qed.

Lemma same_extend_r (n : nat) (h : Heap) (p : ValuePtr) (h' l : Heap) (p' : ValuePtr) :
  same n h p h' p' → same n h p (h' ++ l) p'.
Proof.
  revert p p'. induction n as [|n IH]; intros p p'; [intros []|].
  simpl. destruct (h !! p) as [v|]; [|intros []].
  destruct (h' !! p') as [v'|] eqn:Hp'; [|destruct v; intros []].
  rewrite (lookup_app_l_Some _ _ _ _ Hp').
  destruct v, v'; trivial. intros Hes.
  eapply Forall2_impl; [exact Hes|]. intros e e'. apply IH.
Qed.

Lemma made_from_extend_r (base n : nat) (h l : Heap) (p : ValuePtr) :
  made_from base n h p → made_from base n (h ++ l) p.
Proof.
  revert p. induction n as [|n IH]; intros p; [intros []|].
  simpl. intros [Hge Hp]. split; [assumption|].
  destruct (h !! p) as [v|] eqn:Hv; [|destruct Hp].
  rewrite (lookup_app_l_Some _ _ _ _ Hv).
  destruct v; trivial. eapply Forall_impl; [exact Hp | exact IH].
Qed.

Lemma made_from_base_le (base base' n : nat) (h : Heap) (p : ValuePtr) :
  (base' ≤ base)%nat → made_from base n h p → made_from base' n h p.
Proof.
  intros Hle. revert p. induction n as [|n IH]; intros p; [intros []|].
  simpl. intros [Hge Hp]. split; [lia|].
  destruct (h !! p) as [[d|s|es|nm f]|]; trivial.
  eapply Forall_impl; [exact Hp | exact IH].
Qed.

Lemma made_from_nested (base n : nat) (h : Heap) (p : ValuePtr) :
  made_from base n h p → nested h n p.
Proof.
  revert p. induction n as [|n IH]; intros p; [intros []|].
  simpl. intros [_ Hp]. destruct (h !! p) as [[d|s|es|nm f]|]; trivial.
  eapply Forall_impl; [exact Hp | exact IH].
Qed.

Lemma copy_loop_spec (h0 : Heap) (n : nat) (cp : ValuePtr → M ValuePtr)
  (es : list ValuePtr) :
  Forall (copies h0 n cp) es →
  ∀ copied h, extends h0 h →
    ∃ cs new, copy_loop cp es copied h = (Ok (copied ++ cs), h ++ new)
              ∧ Forall2 (fun e c => same n h0 e (h ++ new) c) es cs
              ∧ Forall (made_from (length h) n (h ++ new)) cs.
Proof.
  induction 1 as [|e es He _ IH]; intros copied h Hext.
  - exists [], []. simpl. rewrite !app_nil_r. repeat split; constructor.
  - destruct (He h Hext) as (c & new1 & Hc & Hsame & Hmade).
    destruct (IH (copied ++ [c]) (h ++ new1)) as (cs & new2 & Hloop & Hsames & Hmades).
    { apply extends_trans with h; [assumption | now exists new1]. }
    exists (c :: cs), (new1 ++ new2). rewrite (app_assoc h new1 new2).
    cbn [copy_loop]. unfold bind at 1. rewrite Hc, Hloop.
    split; [now rewrite <- app_assoc|]. split.
    + constructor; [now apply same_extend_r | assumption].
    + constructor; [now apply made_from_extend_r|].
      eapply Forall_impl; [exact Hmades|]. intros c' Hc'.
      apply made_from_base_le with (length (h ++ new1)); [|assumption].
      rewrite length_app. lia.
Qed.

Lemma copy_from_spec (h0 : Heap) (n : nat) :
  ∀ (fuel : nat) (p : ValuePtr), nested h0 n p → (n ≤ fuel)%nat →
    copies h0 n (copy_from fuel) p.
Proof.
  induction n as [|n IH]; intros fuel p; [intros []|].
  intros Hn Hle h Hext. destruct fuel as [|fuel]; [lia|].
  assert (Hnew : ∀ v, isList v = false → h0 !! p = Some v →
            ∃ c new, make_shared v h = (Ok c, h ++ new)
                     ∧ same (S n) h0 p (h ++ new) c
                     ∧ made_from (length h) (S n) (h ++ new) c).
  { intros v Hv Hp. exists (length h), [v]. split; [reflexivity|].
    cbn [same made_from]. rewrite Hp, make_shared_lookup.
    destruct v; try discriminate; auto. }
  cbn [copy_from nested] in *.
  destruct (h0 !! p) as [v|] eqn:Hp; [|destruct Hn].
  rewrite (bind_deref _ _ _ _ (extends_lookup h0 h p v Hext Hp)).
  destruct v as [d|s|es|nm f]; try (now apply Hnew).
  destruct (copy_loop_spec h0 n (copy_from fuel) es) with (copied := @nil nat) (h := h)
    as (cs & new & Hloop & Hsames & Hmades); [|assumption|].
  { eapply Forall_impl; [exact Hn|]. intros e He. apply IH; [assumption | lia]. }
  exists (length (h ++ new)), (new ++ [List cs]).
  unfold bind. rewrite Hloop. cbn [app]. unfold make_shared.
  rewrite <- app_assoc. split; [reflexivity|].
  rewrite app_assoc. cbn [same made_from]. rewrite Hp, make_shared_lookup.
  split; [|split].
  - eapply Forall2_impl; [exact Hsames|]. intros e c. apply same_extend_r.
  - rewrite length_app. lia.
  - eapply Forall_impl; [exact Hmades|]. intros c. apply made_from_extend_r.
Qed.

Lemma same_nested (n : nat) (h : Heap) (p : ValuePtr) (h' : Heap) (p' : ValuePtr) :
  same n h p h' p' → nested h n p ∧ nested h' n p'.
Proof.
  revert p p'. induction n as [|n IH]; intros p p'; [intros []|].
  simpl. destruct (h !! p) as [v|]; [|intros []].
  destruct (h' !! p') as [v'|]; [|destruct v; intros []].
  destruct v, v'; try (intros []; fail); try (intros _; split; exact I).
  intros Hes. split.
  - induction Hes as [|e e' es es' He _ IHes]; constructor; [apply (IH e e' He) | assumption].
  - induction Hes as [|e e' es es' He _ IHes]; constructor; [apply (IH e e' He) | assumption].
Qed.

Section CopyPrints.

Variable to_string : float → string.

Lemma toString_loop_ext2 (ts1 ts2 : ValuePtr → Result string) (es es' : list ValuePtr)
  (i : nat) (r : string) :
  Forall2 (fun e e' => ts1 e = ts2 e') es es' →
  toString_loop ts1 es i r = toString_loop ts2 es' i r.
Proof.
  intros HF. revert i r. induction HF as [|e e' es es' He _ IH]; intros i r; simpl;
    [reflexivity|].
  rewrite He. destruct (ts2 e'); [apply IH | reflexivity..].
Qed.

Lemma same_toString (n : nat) (h : Heap) (p : ValuePtr) (h' : Heap) (p' : ValuePtr) :
  same n h p h' p' →
  toString_from to_string n h p = toString_from to_string n h' p'.
Proof.
  revert p p'. induction n as [|n IH]; intros p p'; [intros []|].
  simpl. destruct (h !! p) as [v|]; [|intros []].
  destruct (h' !! p') as [v'|]; [|destruct v; intros []].
  destruct v as [d|s|es|nm f], v' as [d'|s'|es'|nm' f'];
    try (intros []; fail); try (now intros ->).
  - intros Hes.
    assert (Hloop : toString_loop (toString_from to_string n h) es 0 "["
                    = toString_loop (toString_from to_string n h') es' 0 "[").
    { apply toString_loop_ext2. eapply Forall2_impl; [exact Hes | exact IH]. }
    now rewrite Hloop.
  - now intros [-> _].
Qed.

Lemma toString_from_any_fuel (h : Heap) (a b : nat) (p : ValuePtr) :
  nested h a p → nested h b p →
  toString_from to_string a h p = toString_from to_string b h p.
Proof.
  intros Ha Hb. destruct (Nat.le_ge_cases a b) as [Hle|Hle].
  - symmetry. now apply toString_from_fuel.
  - now apply toString_from_fuel.
Qed.

(** A value made of objects from [base] on prints the same in every store
    that has those objects. *)
Lemma made_from_agree (base n : nat) (h h' : Heap) (p : ValuePtr) :
  (∀ q, (base ≤ q)%nat → h' !! q = h !! q) →
  made_from base n h p →
  made_from base n h' p
  ∧ toString_from to_string n h' p = toString_from to_string n h p.
Proof.
  intros Hagree. revert p. induction n as [|n IH]; intros p; [intros []|].
  simpl. intros [Hge Hp]. rewrite (Hagree p Hge).
  destruct (h !! p) as [[d|s|es|nm f]|]; try (repeat split; trivial; fail).
  split; [split; [assumption|]|].
  - eapply Forall_impl; [exact Hp|]. intros e He. now apply IH.
  - rewrite (toString_loop_ext (toString_from to_string n h')
               (toString_from to_string n h) es 0 "["); [reflexivity|].
    eapply Forall_impl; [exact Hp|]. intros e He. now apply IH.
Qed.

(** X9.  [copy] of a value that is not nested in a cycle returns, and is
    deep: the result is a new object that is the same value (the same
    Number, text, Function, or a List of copies in the same order), every
    object it reaches through Lists is new as well, and no object that
    was there is changed.  So the copy prints as the original does, and
    goes on printing the same whatever is later done to the objects that
    existed before it. *)
Theorem copy_is_deep (h : Heap) (p : ValuePtr) :
  finite h p →
  ∃ (p' : ValuePtr) (new : Heap),
    copy p h = (Ok p', h ++ new)
    ∧ (length h ≤ p')%nat
    ∧ same (length h) h p (h ++ new) p'
    ∧ made_from (length h) (length h) (h ++ new) p'
    ∧ (∃ s, toString to_string p h = (Ok s, h)
            ∧ toString to_string p' (h ++ new) = (Ok s, h ++ new)
            ∧ ∀ h'' : Heap,
                (∀ q, (length h ≤ q)%nat → h'' !! q = (h ++ new) !! q) →
                toString to_string p' h'' = (Ok s, h'')).
Proof.
  intros Hfin. apply finite_nested in Hfin.
  destruct (copy_from_spec h (length h) (length h) p Hfin (Nat.le_refl _) h
              (extends_refl h)) as (p' & new & Hcopy & Hsame & Hmade).
  exists p', new. split; [exact Hcopy|].
  assert (Hge : (length h ≤ p')%nat).
  { destruct (length h) as [|n] eqn:Hlen; [lia|]. now destruct Hmade. }
  split; [exact Hge|]. split; [exact Hsame|]. split; [exact Hmade|].
  destruct (toString_from_returns to_string h (length h) p Hfin) as [s Hs].
  assert (Hs' : toString_from to_string (length h) (h ++ new) p' = Ok s)
    by now rewrite <- (same_toString _ _ _ _ _ Hsame).
  exists s. split; [unfold toString; now rewrite Hs|]. split.
  - unfold toString. f_equal. rewrite <- Hs'.
    apply toString_from_any_fuel; [|now apply (made_from_nested (length h))].
    apply nested_within with (length h). now apply (made_from_nested (length h)).
  - intros h'' Hagree.
    destruct (made_from_agree (length h) (length h) (h ++ new) h'' p' Hagree Hmade)
      as [Hmade'' Hprint].
    unfold toString. f_equal. rewrite <- Hs', <- Hprint.
    apply toString_from_any_fuel; [|now apply (made_from_nested (length h))].
    apply nested_within with (length h). now apply (made_from_nested (length h)).
Qed.

End CopyPrints.

(** ** What no operation does *)

Lemma additive_bind {A B} (m : M A) (k : A → M B) :
  additive m → (∀ a, additive (k a)) → additive (bind m k).
Proof.
  intros Hm Hk h. unfold bind. specialize (Hm h).
  destruct (m h) as [[a|w|] h']; cbn in *; [|assumption..].
  apply extends_trans with h'; [assumption | apply Hk].
Qed.

Lemma additive_read_only {A} (m : M A) : read_only m → additive m.
Proof. intros Hm h. rewrite Hm. apply extends_refl. Qed.

Lemma additive_make_shared (v : Value) : additive (make_shared v).
Proof. intros h. apply extends_one. Qed.

Lemma read_only_undefined {A} : read_only (@undefined A).
Proof. now intros h. Qed.

Section Additive.

Variable pow : float → float → float.
Variable to_string : float → string.

Lemma read_only_toString (p : ValuePtr) : read_only (toString to_string p).
Proof. now intros h. Qed.

Ltac additive_step :=
  match goal with
  | |- additive (bind _ _) => apply additive_bind; [|intros ?]
  | |- additive (if ?c then _ else _) => destruct c
  | |- additive (match ?v with _ => _ end) => destruct v
  | |- additive (make_shared _) => apply additive_make_shared
  | |- additive _ =>
      apply additive_read_only;
      first [apply read_only_deref | apply read_only_ret | apply read_only_throw
            |apply read_only_undefined | apply read_only_lift
            |apply read_only_cast_int | apply read_only_at
            |apply read_only_toString | apply read_only_pop]
  end.

Lemma additive_copy_loop (cp : ValuePtr → M ValuePtr) (es copied : list ValuePtr) :
  (∀ e, additive (cp e)) → additive (copy_loop cp es copied).
Proof.
  intros Hcp. revert copied. induction es as [|e es IH]; intros copied; simpl.
  - additive_step.
  - apply additive_bind; [apply Hcp | intros c; apply IH].
Qed.

Lemma additive_copy_from (fuel : nat) (p : ValuePtr) : additive (copy_from fuel p).
Proof.
  revert p. induction fuel as [|fuel IH]; intros p; simpl; [additive_step|].
  apply additive_bind; [additive_step|]. intros v.
  destruct v as [d|s|es|nm f]; [additive_step | additive_step | | additive_step].
  apply additive_bind; [now apply additive_copy_loop | intros cs; additive_step].
Qed.

Lemma additive_append (args : list ValuePtr) : additive (append args).
Proof.
  intros h. destruct args as [|l [|v vs]]; try apply extends_refl.
  destruct (h !! l) as [x|] eqn:Hl.
  - destruct (isList x) eqn:Hx.
    + destruct x as [d|s|es|nm f]; try discriminate.
      rewrite (append_spec h l (v :: vs) es Hl ltac:(discriminate)).
      apply extends_one.
    + unfold append. change (at_ (l :: v :: vs) 0) with (@ret ValuePtr l).
      destruct (Z.of_nat (length (l :: v :: vs)) <? 2); [apply extends_refl|].
      rewrite bind_ret, (bind_deref _ _ _ _ Hl), Hx. apply extends_refl.
  - unfold append. change (at_ (l :: v :: vs) 0) with (@ret ValuePtr l).
    destruct (Z.of_nat (length (l :: v :: vs)) <? 2); [apply extends_refl|].
    rewrite bind_ret, (bind_deref_dangling _ _ _ Hl). apply extends_refl.
Qed.

(** X10.  No operator and no builtin changes or removes an object: after
    any of them, on any arguments and whether it returns or throws, every
    object is what it was, and the store has at most gained objects.
    Lists are changed in place by [List::setItem] and [List::append]
    alone, and none of these calls them on an object they were given. *)
Theorem operations_only_add_objects (this other : ValuePtr) (args : list ValuePtr) :
  Forall (fun m : M ValuePtr => ∀ h, extends h (snd (m h)))
    [addedTo to_string this other; subbedBy this other; multedBy this other;
     divedBy this other; powedBy pow this other;
     comparisonEq this other; comparisonNe this other; comparisonLt this other;
     comparisonGt this other; comparisonLte this other; comparisonGte this other;
     andedBy this other; oredBy this other; notted this; copy this;
     len args; append args; pop args; str to_string args; num args].
Proof.
  repeat (apply Forall_cons_2; [|]); try apply Forall_nil_2;
    match goal with |- ∀ h, extends h (snd (?m h)) => change (additive m) end.
  all: try (cbv beta delta
         [addedTo subbedBy multedBy divedBy powedBy comparisonEq comparisonNe
          comparisonLt comparisonGt comparisonLte comparisonGte andedBy oredBy
          notted Number_addedTo Number_subbedBy Number_multedBy Number_divedBy
          Number_powedBy Number_comparisonEq Number_comparisonNe
          Number_comparisonLt Number_comparisonGt Number_comparisonLte
          Number_comparisonGte Number_andedBy Number_oredBy Number_notted
          String_addedTo String_multedBy Value_addedTo Value_subbedBy
          Value_multedBy Value_divedBy Value_powedBy Value_comparisonEq
          Value_comparisonNe Value_comparisonLt Value_comparisonGt
          Value_comparisonLte Value_comparisonGte Value_andedBy Value_oredBy
          Value_notted len str num];
       repeat additive_step; fail).
  - intros h. apply (additive_copy_from (length h) this h).
  - apply additive_append.
Qed.

End Additive.

(** ** The static Numbers *)



(** ** print, input *)

Section PrintInput.

Variable to_string : float → string.

Lemma print_loop_writes (args : list ValuePtr) (strs : list string) (i : nat)
  (h : Heap) (out inp : string) (n t f pi : option ValuePtr) :
  Forall2 (fun a s => toString to_string a h = (Ok s, h)) args strs →
  print_loop to_string args i (mkWorld h out inp n t f pi)
  = (Ok tt,
     mkWorld h
       (out +:+ (match strs with
                 | [] => ""
                 | _ :: _ => if (0 <? i)%nat then " " else ""
                 end) +:+ String.concat " " strs)
       inp n t f pi).
Proof.
  intros HF. revert i out. induction HF as [|a s args strs Ha _ IH]; intros i out.
  - simpl. unfold io_ret. now rewrite !string_app_nil_r.
  - cbn [print_loop]. unfold io_bind at 1.
    assert (Hsep : (if (0 <? i)%nat then write " " else io_ret tt)
                     (mkWorld h out inp n t f pi)
                   = (Ok tt, mkWorld h (out +:+ (if (0 <? i)%nat then " " else ""))
                               inp n t f pi)).
    { destruct (0 <? i)%nat; [reflexivity|].
      unfold io_ret. now rewrite string_app_nil_r. }
    rewrite Hsep. unfold io_bind at 1, run. cbn [heap]. rewrite Ha.
    unfold with_heap. cbn [heap cout cin null_instance true_instance
                             false_instance pi_instance].
    unfold io_bind at 1, write. cbn [heap cout cin null_instance true_instance
                                       false_instance pi_instance].
    rewrite IH. f_equal. f_equal. change (0 <? S i)%nat with true.
    destruct strs as [|s' strs].
    + cbn [String.concat]. now rewrite !string_app_nil_r, !string_app_assoc.
    + change (String.concat " " (s :: s' :: strs))
        with (s +:+ " " +:+ String.concat " " (s' :: strs)).
      now rewrite !string_app_assoc.
Qed.

(** X12.  [print] of values that are not nested in a cycle never throws:
    it writes their [toString] in order with one space between them and a
    new line at the end (the new line alone without arguments), reads no
    input, and returns the [Number::null] object, the same at every call;
    the store is as it was but for that one Number the first time. *)
Theorem print_writes_a_line (w : World) (args : list ValuePtr) :
  Forall (finite (heap w)) args →
  ∃ strs p w',
    Forall2 (fun a s => toString to_string a (heap w) = (Ok s, heap w)) args strs
    ∧ print to_string args w = (Ok p, w')
    ∧ cout w' = cout w +:+ String.concat " " strs +:+ endl
    ∧ cin w' = cin w
    ∧ null_instance w' = Some p
    ∧ (match null_instance w with
       | Some q => p = q ∧ heap w' = heap w
       | None => p = length (heap w) ∧ heap w' = heap w ++ [Number 0]
       end)
    ∧ ∃ w2, print to_string [] w' = (Ok p, w2)
            ∧ heap w2 = heap w' ∧ cout w2 = cout w' +:+ endl.
Proof.
  intros Hfin.
  destruct (Forall_Forall2_exists
              (fun a s => toString to_string a (heap w) = (Ok s, heap w)) args)
    as [strs Hstrs].
  { eapply Forall_impl; [exact Hfin|]. intros a Ha.
    destruct (toString_returns to_string (heap w) a Ha) as (s & Hs). eauto. }
  destruct w as [h out inp n t f pi]. cbn [heap] in *.
  exists strs. unfold print. unfold io_bind at 1.
  rewrite (print_loop_writes args strs 0 h out inp n t f pi Hstrs).
  unfold io_bind, write, Number_null. cbn [heap cout cin null_instance
    true_instance false_instance pi_instance print_loop io_ret].
  assert (Hout : (out +:+ match strs with
                          | [] => ""
                          | _ :: _ => if (0 <? 0)%nat then " " else ""
                          end +:+ String.concat " " strs) +:+ endl
                 = out +:+ String.concat " " strs +:+ endl).
  { rewrite string_app_assoc. f_equal. now destruct strs. }
  destruct n as [q|]; eexists _, _; (split; [exact Hstrs|]);
    (split; [reflexivity|]); cbn [heap cout cin null_instance];
    (split; [exact Hout|]); (split; [reflexivity|]); (split; [reflexivity|]);
    (split; [split; reflexivity|]); eexists; (split; [reflexivity|]);
    split; reflexivity.
Qed.

(** X13.  [input] never throws and never fails on the end of the input:
    it returns a new String holding the next line of the input without
    its end, takes that line and its end off the input, and at the end of
    the input returns the empty String.  A first argument is printed
    before as the prompt, with no new line. *)
Theorem input_reads_a_line (w : World) :
  (∀ line rest,
     first_line (cin w) = (line, rest) →
     (∃ w', input to_string [] w = (Ok (length (heap w)), w')
            ∧ heap w' = heap w ++ [String line]
            ∧ cin w' = rest ∧ cout w' = cout w)
     ∧ (∀ a more, finite (heap w) a →
        ∃ s w', toString to_string a (heap w) = (Ok s, heap w)
                ∧ input to_string (a :: more) w = (Ok (length (heap w)), w')
                ∧ heap w' = heap w ++ [String line]
                ∧ cin w' = rest ∧ cout w' = cout w +:+ s))
  ∧ (∀ line rest : string,
       (∀ c, c ∈ list_ascii_of_string line → c ≠ newline) →
       first_line (line +:+ endl +:+ rest) = (line, rest)
       ∧ first_line line = (line, ""))
  ∧ first_line "" = ("", "").
Proof.
  split; [|split; [|reflexivity]].
  - intros line rest Hline. destruct w as [h out inp n t f pi]. cbn [cin heap cout] in *.
    split.
    + eexists. unfold input, io_bind, io_ret, getline, run, make_shared.
      cbn [heap cout cin null_instance true_instance false_instance pi_instance].
      rewrite Hline. cbn. repeat split; reflexivity.
    + intros a more Hfin.
      destruct (toString_returns to_string h a Hfin) as (s & Hs).
      exists s. eexists. split; [exact Hs|].
      unfold input. change (at_ (a :: more) 0) with (@ret ValuePtr a).
      unfold io_bind, io_ret, getline, run, make_shared, write, ret, with_heap.
      cbn [heap cout cin null_instance true_instance false_instance pi_instance].
      rewrite Hs.
      cbn [heap cout cin null_instance true_instance false_instance pi_instance].
      rewrite Hline. cbn. repeat split; reflexivity.
  - intros line rest. induction line as [|c line IH]; intros Hno.
    + split; reflexivity.
    + assert (Hc : Ascii.eqb c newline = false).
      { apply Ascii.eqb_neq. apply Hno. simpl. left. }
      destruct IH as [IH1 IH2].
      { intros c' Hc'. apply Hno. simpl. now right. }
      change (String.String c line +:+ endl +:+ rest)
        with (String.String c (line +:+ endl +:+ rest)).
      cbn [first_line]. now rewrite Hc, IH1, IH2.
Qed.

End PrintInput.

(** ** embed, aiCall *)

Lemma embedding_loop_spec (n : nat) (i : Z) (acc : list ValuePtr) (h : Heap) :
  embedding_loop n i acc h
  = (Ok (acc ++ seq (length h) n),
     h ++ map (fun k => Number (Z_to_double (i + Z.of_nat k) / 10)) (seq 0 n)).
Proof.
  revert i acc h. induction n as [|n IH]; intros i acc h.
  - simpl. unfold ret. now rewrite !app_nil_r.
  - cbn [embedding_loop]. unfold bind, make_shared. rewrite IH.
    rewrite length_app. cbn [length]. rewrite Nat.add_1_r.
    rewrite <- !app_assoc. cbn [seq map app]. f_equal. f_equal.
    rewrite Z.add_0_r. f_equal.
    rewrite <- seq_shift, map_map. apply map_ext. intros k.
    do 3 f_equal. lia.
Qed.

Lemma io_run_pure {A B} (m : M A) (a : A) (k : A → IO B) (w : World) :
  m (heap w) = (Ok a, heap w) → io_bind (run m) k w = k a w.
Proof.
  intros Hm. destruct w as [h out inp n t f pi]. unfold io_bind, run.
  cbn [heap] in *. now rewrite Hm.
Qed.

(** X14.  [embed] and [aiCall] check their first argument and nothing
    else: with no argument, or a first argument that is not a String,
    they throw and change nothing.  Otherwise [embed] returns a new List
    of ten new Numbers, 0.0, 0.1, ... 0.9, whatever the text, and writes
    one line naming the model, which is the second argument when that is a
    String and "default" when it is missing or of another type; [aiCall]
    returns a new String "AI model response" and writes one line naming
    its first argument. *)
Theorem embed_and_aiCall_check_first_argument (w : World) :
  embed [] w = (Throw "embed() requires at least one argument", w)
  ∧ aiCall [] w = (Throw "ai() requires at least one argument", w)
  ∧ (∀ a0 rest v, heap w !! a0 = Some v → isString v = false →
       embed (a0 :: rest) w = (Throw "First argument to embed() must be a string", w)
       ∧ aiCall (a0 :: rest) w = (Throw "First argument to ai() must be a string", w))
  ∧ (∀ a0 rest text, heap w !! a0 = Some (String text) →
       (∃ w', aiCall (a0 :: rest) w = (Ok (length (heap w)), w')
              ∧ heap w' = heap w ++ [String "AI model response"]
              ∧ cout w' = cout w +:+ "Calling AI model: " +:+ text +:+ endl
              ∧ cin w' = cin w)
       ∧ ∀ model,
           (rest = [] ∧ model = "default"
            ∨ ∃ a1 more v1, rest = a1 :: more ∧ heap w !! a1 = Some v1
                ∧ model = match v1 with String m => m | _ => "default" end) →
           ∃ w', embed (a0 :: rest) w = (Ok (length (heap w) + 10)%nat, w')
                 ∧ heap w'
                   = heap w
                     ++ map (fun k => Number (Z_to_double (Z.of_nat k) / 10)) (seq 0 10)
                     ++ [List (seq (length (heap w)) 10)]
                 ∧ cout w' = cout w +:+ "Embedding text with model: " +:+ model +:+ endl
                 ∧ cin w' = cin w).
Proof.
  destruct w as [h out inp n t f pi]. cbn [heap cout cin].
  set (w := mkWorld h out inp n t f pi).
  assert (Hderef : ∀ B a v (k : Value → IO B), h !! a = Some v →
            io_bind (run (deref a)) k w = k v w).
  { intros B a v k Ha. apply (io_run_pure (deref a) v k w).
    unfold deref. cbn [heap w]. now rewrite Ha. }
  assert (Hat : ∀ B a rest (k : ValuePtr → IO B),
            io_bind (run (at_ (a :: rest) 0)) k w = k a w).
  { intros B a rest k. now apply (io_run_pure (at_ (a :: rest) 0) a k w). }
  split; [reflexivity|]. split; [reflexivity|]. split.
  - intros a0 rest v Ha Hv. unfold embed, aiCall.
    now rewrite !Hat, !(Hderef _ a0 v _ Ha), Hv.
  - intros a0 rest text Ha. split.
    + eexists. unfold aiCall. rewrite Hat, (Hderef _ a0 _ _ Ha).
      cbn [isString negb asString].
      rewrite (io_run_pure (lift (asString (String text))) text) by reflexivity.
      split; [reflexivity|]. cbn. repeat split; reflexivity.
    + intros model Hmodel.
      assert (Hm : (if 1 <? Z.of_nat (length (a0 :: rest)) then
                      io_bind (run (at_ (a0 :: rest) 1)) (fun a1 =>
                      io_bind (run (deref a1)) (fun v1 =>
                      if isString v1 then run (lift (asString v1))
                      else io_ret "default"))
                    else io_ret "default") w
                   = (Ok model, w)).
      { destruct Hmodel as [[-> ->]|(a1 & more & v1 & -> & Ha1 & ->)]; [reflexivity|].
        assert (Hlen : (1 <? Z.of_nat (length (a0 :: a1 :: more))) = true)
          by (apply Z.ltb_lt; cbn [length]; lia).
        rewrite Hlen.
        rewrite (io_run_pure (at_ (a0 :: a1 :: more) 1) a1) by reflexivity.
        rewrite (Hderef _ a1 v1 _ Ha1).
        now destruct v1. }
      eexists. unfold embed. rewrite Hat, (Hderef _ a0 _ _ Ha).
      cbn [isString negb]. unfold io_bind at 1. rewrite Hm.
      unfold io_bind, write, run, make_shared, with_heap.
      cbn [heap cout cin null_instance true_instance false_instance pi_instance w].
      rewrite (embedding_loop_spec 10 0 [] h).
      cbn [heap cout cin null_instance true_instance false_instance pi_instance app].
      rewrite length_app, length_map, length_seq.
      split; [reflexivity|]. split; [|split; reflexivity].
      now rewrite <- app_assoc.
Qed.

Lemma embed_and_aiCall_check_first_argument_witness :
  let w := mkWorld [String "some text"; Number 3; String "m1"] "" "" None None None None in
  embed [1]%nat w = (Throw "First argument to embed() must be a string", w)
  ∧ (∃ w', embed [0; 1]%nat w = (Ok 13%nat, w')
           ∧ cout w' = "Embedding text with model: default" +:+ endl)
  ∧ (∃ w', embed [0; 2]%nat w = (Ok 13%nat, w')
           ∧ cout w' = "Embedding text with model: m1" +:+ endl).
Proof.
  intros w.
  destruct (embed_and_aiCall_check_first_argument w) as (_ & _ & Hbad & Hgood).
  destruct (Hbad 1%nat [] (Number 3) eq_refl eq_refl) as [Hthrow _].
  destruct (Hgood 0%nat [1%nat] "some text" eq_refl) as [_ Hnum].
  destruct (Hgood 0%nat [2%nat] "some text" eq_refl) as [_ Hstr].
  destruct (Hnum "default") as (w1 & H1 & _ & Hout1 & _).
  { right. exists 1%nat, [], (Number 3). repeat split; reflexivity. }
  destruct (Hstr "m1") as (w2 & H2 & _ & Hout2 & _).
  { right. exists 2%nat, [], (String "m1"). repeat split; reflexivity. }
  split; [exact Hthrow|]. split; [exists w1 | exists w2]; split; assumption.
Defined.

(** ** The printing theorems on a small store *)

Lemma toString_prints_witness :
  let h := [Number 1.5; String "ab"; List [0; 1]%nat; Function "len" 0;
            List [2; 3]%nat] in
  toString to_string_f 4 h = (Ok "[[1.500000, ab], <function len>]", h).
Proof.
  intros h.
  assert (Hfin : finite h 4%nat).
  { exists 3%nat. simpl. repeat constructor. }
  destruct (toString_prints to_string_f h 4%nat Hfin) as (s & Hs & _).
  assert (Hval : s = "[[1.500000, ab], <function len>]")
    by (vm_compute in Hs; now injection Hs as <-).
  now rewrite <- Hval.
Defined.

Lemma String_addedTo_appends_toString_witness :
  let h := [String "n = "; Number 2; List [1; 1]%nat] in
  addedTo to_string_f 0 1 h = (Ok 3%nat, h ++ [String "n = 2.000000"])
  ∧ addedTo to_string_f 0 2 h = (Ok 3%nat, h ++ [String "n = [2.000000, 2.000000]"])
  ∧ addedTo to_string_f 0 0 h = (Ok 3%nat, h ++ [String "n = n = "]).
Proof.
  intros h.
  assert (Hfin : ∀ p, (p < 3)%nat → finite h p).
  { intros p Hp. exists 2%nat.
    destruct p as [|[|[|p]]]; [| | |lia]; simpl; repeat constructor. }
  destruct (String_addedTo_appends_toString to_string_f h 0%nat 1%nat "n = " eq_refl
              (Hfin 1%nat ltac:(lia))) as (s1 & Hs1 & H1).
  destruct (String_addedTo_appends_toString to_string_f h 0%nat 2%nat "n = " eq_refl
              (Hfin 2%nat ltac:(lia))) as (s2 & Hs2 & H2).
  destruct (String_addedTo_appends_toString to_string_f h 0%nat 0%nat "n = " eq_refl
              (Hfin 0%nat ltac:(lia))) as (s3 & Hs3 & H3).
  vm_compute in Hs1. injection Hs1 as <-.
  vm_compute in Hs2. injection Hs2 as <-.
  vm_compute in Hs3. injection Hs3 as <-.
  split; [exact H1|]. split; [exact H2 | exact H3].
Defined.

Lemma str_is_toString_witness :
  let h := [List []; Number 0.25] in
  str to_string_f [0; 1]%nat h = (Ok 2%nat, h ++ [String "[]"])
  ∧ str to_string_f [1]%nat h = (Ok 2%nat, h ++ [String "0.250000"]).
Proof.
  intros h.
  destruct (str_is_toString to_string_f) as [_ Hstr].
  destruct (Hstr h 0%nat [1%nat]) as (s0 & Hs0 & H0 & _).
  { exists 1%nat. simpl. constructor. }
  destruct (Hstr h 1%nat []) as (s1 & Hs1 & H1 & _).
  { exists 1%nat. exact I. }
  vm_compute in Hs0. injection Hs0 as <-.
  vm_compute in Hs1. injection Hs1 as <-.
  split; [exact H0 | exact H1].
Defined.

Lemma copy_is_deep_witness :
  let h := [Number 1; List [0]%nat; List [1; 0]%nat] in
  copy 2 h
  = (Ok 6%nat, h ++ [Number 1; List [3]%nat; Number 1; List [4; 5]%nat])
  ∧ toString to_string_f 6 (h ++ [Number 1; List [3]%nat; Number 1; List [4; 5]%nat])
    = (Ok "[[1.000000], 1.000000]",
       h ++ [Number 1; List [3]%nat; Number 1; List [4; 5]%nat]).
Proof.
  intros h.
  assert (Hfin : finite h 2%nat).
  { exists 3%nat. simpl. repeat constructor. }
  destruct (copy_is_deep to_string_f h 2%nat Hfin)
    as (p' & new & Hcopy & _ & _ & _ & s & Hs & Hs' & _).
  assert (Hres : p' = 6%nat ∧ h ++ new = h ++ [Number 1; List [3]%nat; Number 1; List [4; 5]%nat]).
  { vm_compute in Hcopy. injection Hcopy as <- Hnew. split; [reflexivity|].
    now rewrite <- Hnew. }
  destruct Hres as [-> Hnew]. rewrite Hnew in Hcopy, Hs'.
  vm_compute in Hs. injection Hs as <-.
  split; [exact Hcopy | exact Hs'].
Defined.

Lemma print_writes_a_line_witness :
  let w := mkWorld [Number 1; String "a b"; List [0; 1]%nat] "" "" None None None None in
  ∃ w', print to_string_f [0; 1; 2]%nat w = (Ok 3%nat, w')
        ∧ cout w' = "1.000000 a b [1.000000, a b]" +:+ endl
        ∧ null_instance w' = Some 3%nat.
Proof.
  intros w.
  destruct (print_writes_a_line to_string_f w [0; 1; 2]%nat)
    as (strs & p & w' & Hstrs & Hprint & Hout & _ & Hnull & Hp & _).
  { repeat constructor; exists 2%nat; simpl; repeat constructor. }
  destruct Hp as [-> _]. exists w'. split; [exact Hprint|]. split; [|exact Hnull].
  rewrite Hout.
  inversion Hstrs as [|a0 s0 ? ? H0 Hrest]; subst.
  inversion Hrest as [|a1 s1 ? ? H1 Hrest']; subst.
  inversion Hrest' as [|a2 s2 ? ? H2 Hnil]; subst. inversion Hnil; subst.
  vm_compute in H0. injection H0 as <-.
  vm_compute in H1. injection H1 as <-.
  vm_compute in H2. injection H2 as <-.
  reflexivity.
Defined.

Lemma input_reads_a_line_witness :
  let w := mkWorld [String "> "] "" ("first" +:+ endl +:+ "second") None None None None in
  ∃ w1 w2 w3,
    input to_string_f [0]%nat w = (Ok 1%nat, w1)
    ∧ heap w1 = [String "> "; String "first"] ∧ cout w1 = "> "
    ∧ input to_string_f [] w1 = (Ok 2%nat, w2)
    ∧ heap w2 = [String "> "; String "first"; String "second"]
    ∧ input to_string_f [] w2 = (Ok 3%nat, w3)
    ∧ heap w3 = [String "> "; String "first"; String "second"; String ""].
Proof.
  intros w.
  destruct (input_reads_a_line to_string_f w) as [Hw _].
  destruct (Hw "first" "second" eq_refl) as [_ Hprompt].
  destruct (Hprompt 0%nat []) as (s & w1 & Hs & H1 & Hh1 & Hin1 & Hout1).
  { exists 1%nat. exact I. }
  vm_compute in Hs. injection Hs as <-.
  destruct (input_reads_a_line to_string_f w1) as [Hw1 _].
  destruct (Hw1 "second" "") as [(w2 & H2 & Hh2 & Hin2 & _) _].
  { now rewrite Hin1. }
  destruct (input_reads_a_line to_string_f w2) as [Hw2 _].
  destruct (Hw2 "" "") as [(w3 & H3 & Hh3 & _) _].
  { now rewrite Hin2. }
  exists w1, w2, w3. rewrite Hh1 in H2. rewrite Hh2, Hh1 in H3, Hh3.
  rewrite Hh1 in Hh2.
  repeat split; assumption.
Defined.

(** ** Child contexts *)

Lemma getVariable_from_app (σ : Contexts) (c : Context) (n : string) :
  parents_first σ →
  ∀ (fuel : nat) (q : ContextPtr), (q < length σ)%nat →
    getVariable_from fuel (σ ++ [c]) q n = getVariable_from fuel σ q n.
Proof.
  intros Hσ. induction fuel as [|fuel IH]; intros q Hq; simpl; [reflexivity|].
  rewrite lookup_app_l by assumption.
  destruct (σ !! q) as [cq|] eqn:Hcq; [|reflexivity].
  destruct (variables_ cq !! n); [reflexivity|].
  destruct (parent_ cq) as [p|] eqn:Hp; [|reflexivity].
  pose proof (Hσ q cq p Hcq Hp). apply IH. lia.
Qed.

(** X15.  A context made with a parent, [Context(name, parent)], keeps a
    pointer to the parent and no copy of its variables.  It reads every
    name as the parent does; a variable set in the parent after the child
    was made is read through the child; and once the child has set a name
    itself, setting that name in the parent no longer shows in the child,
    while the parent reads its own value. *)
Theorem child_reads_through_parent (σ : Contexts) (parent : ContextPtr)
  (name : string) :
  parents_first σ → (parent < length σ)%nat →
  let child := fst (new_Context name (Some parent) σ) in
  let σ' := snd (new_Context name (Some parent) σ) in
  (∀ n, getVariable σ' child n = getVariable σ parent n
        ∧ hasVariable σ' child n = hasVariable σ parent n)
  ∧ (∀ n v, ∃ σ1, setVariable parent n v σ' = Ok σ1
                  ∧ getVariable σ1 child n = Ok v)
  ∧ (∀ n v v', ∃ σ1 σ2,
       setVariable child n v σ' = Ok σ1 ∧ setVariable parent n v' σ1 = Ok σ2
       ∧ getVariable σ2 child n = Ok v ∧ getVariable σ2 parent n = Ok v').
Proof.
  intros Hσ Hparent. unfold new_Context. cbn [fst snd].
  set (cc := mkContext name (Some parent) ∅).
  assert (Hσ' : parents_first (σ ++ [cc])).
  { apply (parents_first_new_Context σ name (Some parent) Hσ). now intros p [= <-]. }
  assert (Hchild : (σ ++ [cc]) !! length σ = Some cc).
  { rewrite lookup_app_r by lia. now rewrite Nat.sub_diag. }
  destruct (lookup_lt_is_Some_2 σ parent Hparent) as [c Hc0].
  assert (Hc : (σ ++ [cc]) !! parent = Some c) by now apply lookup_app_l_Some.
  assert (Hreads : ∀ n, getVariable (σ ++ [cc]) (length σ) n = getVariable σ parent n).
  { intros n.
    rewrite (getVariable_parent (σ ++ [cc]) n Hσ' (length σ) parent cc Hchild
               (lookup_empty n) eq_refl).
    unfold getVariable. rewrite length_app. cbn [length].
    rewrite (getVariable_from_fuel (σ ++ [cc]) n Hσ' (length σ + 1) (length σ) parent)
      by lia.
    now apply getVariable_from_app. }
  split; [intros n; rewrite !hasVariable_getVariable; now rewrite Hreads|].
  split.
  - intros n v. eexists. split; [unfold setVariable; rewrite Hc; reflexivity|].
    assert (Hset : setVariable parent n v (σ ++ [cc])
                   = Ok (<[parent := mkContext (name_ c) (parent_ c)
                                        (<[n := v]> (variables_ c))]> (σ ++ [cc])))
      by (unfold setVariable; now rewrite Hc).
    pose proof (parents_first_setVariable _ _ _ _ _ Hσ' Hset) as Hσ1.
    rewrite (getVariable_parent _ n Hσ1 (length σ) parent cc);
      [| |apply lookup_empty|reflexivity].
    + eapply getVariable_local.
      * apply list_lookup_insert_eq. now apply lookup_lt_Some in Hc.
      * simpl. apply lookup_insert_eq.
    + rewrite list_lookup_insert_ne by lia. exact Hchild.
  - intros n v v'.
    assert (Hlen : (length σ < length (σ ++ [cc]))%nat)
      by (rewrite length_app; simpl; lia).
    eexists _, _. split; [unfold setVariable; rewrite Hchild; reflexivity|].
    split.
    { unfold setVariable. rewrite list_lookup_insert_ne by lia. rewrite Hc.
      reflexivity. }
    split.
    + eapply getVariable_local.
      * rewrite list_lookup_insert_ne by lia. now apply list_lookup_insert_eq.
      * simpl. apply lookup_insert_eq.
    + eapply getVariable_local.
      * apply list_lookup_insert_eq. rewrite length_insert. lia.
      * simpl. apply lookup_insert_eq.
Qed.

Lemma child_reads_through_parent_witness :
  let σ := [mkContext "global" None (<["x" := 5%nat]> ∅)] in
  let σ' := snd (new_Context "f" (Some 0%nat) σ) in
  getVariable σ' 1 "x" = Ok 5%nat
  ∧ (∃ σ1, setVariable 0 "y" 8%nat σ' = Ok σ1 ∧ getVariable σ1 1 "y" = Ok 8%nat)
  ∧ ∃ σ1 σ2, setVariable 1 "x" 6%nat σ' = Ok σ1 ∧ setVariable 0 "x" 7%nat σ1 = Ok σ2
             ∧ getVariable σ2 1 "x" = Ok 6%nat ∧ getVariable σ2 0 "x" = Ok 7%nat.
Proof.
  intros σ σ'.
  assert (Hσ : parents_first σ).
  { intros c ctx p Hc Hp. destruct c as [|c]; simpl in Hc;
      [injection Hc as <-; discriminate | now rewrite lookup_nil in Hc]. }
  destruct (child_reads_through_parent σ 0%nat "f" Hσ ltac:(simpl; lia))
    as (Hreads & Hlate & Hshadow).
  split; [exact (eq_trans (proj1 (Hreads "x")) eq_refl)|].
  split; [exact (Hlate "y" 8%nat) | exact (Hshadow "x" 6%nat 7%nat)].
Defined.

(** ** Lists changed in place *)

(** X16.  What [List::setItem] writes, [List::getItem] reads: after
    [setItem(i, v)] the List has the length it had, [getItem(i)] is [v]
    and every other position holds what it held.  [List::append] adds
    one element at the end: the length grows by one, [getItem(-1)] is the
    new element and the positions counted from the front are unchanged.
    Done through a pointer, both change the one object every alias of
    the List points to. *)
Theorem List_written_then_read (L : list ValuePtr) (v : ValuePtr) :
  Z.of_nat (length L) < INT_MAX →
  (∀ i L', in_int i → List_setItem L i v = Ok L' →
     length L' = length L
     ∧ List_getItem L' i = Ok v
     ∧ ∀ j, in_int j →
         normalized (Z.of_nat (length L)) j ≠ normalized (Z.of_nat (length L)) i →
         List_getItem L' j = List_getItem L j)
  ∧ List_length (List_append L v) = List_length L + 1
  ∧ List_getItem (List_append L v) (-1) = Ok v
  ∧ (∀ j, 0 <= j < Z.of_nat (length L) →
       List_getItem (List_append L v) j = List_getItem L j)
  ∧ (∀ (h : Heap) (l : ValuePtr), h !! l = Some (List L) →
       ∃ h', append_at l v h = (Ok tt, h')
             ∧ h' !! l = Some (List (L ++ [v]))
             ∧ getItem_at l (-1) h' = (Ok v, h')
             ∧ ∀ q, q ≠ l → h' !! q = h !! q).
Proof.
  intros Hlen.
  assert (Hn : Z.of_nat (length L) <= INT_MAX) by lia.
  assert (Hint : ∀ z, 0 <= z <= Z.of_nat (length L) → in_int z)
    by (intros z Hz; unfold in_int, INT_MIN, INT_MAX in *; lia).
  assert (Hneg1 : in_int (-1)) by (unfold in_int, INT_MIN, INT_MAX; lia).
  assert (Hlen' : length (List_append L v) = S (length L))
    by (unfold List_append; rewrite length_app; simpl; lia).
  assert (Hn' : Z.of_nat (length (List_append L v)) <= INT_MAX) by (rewrite Hlen'; lia).
  assert (Hlast : List_getItem (List_append L v) (-1) = Ok v).
  { destruct (List_getItem_in_range (List_append L v) (-1) Hneg1 Hn')
      as (x & Hx & Hget).
    - unfold normalized. rewrite Hlen'. change (-1 <? 0) with true. cbn iota. lia.
    - rewrite Hget. f_equal. unfold normalized in Hx.
      change (-1 <? 0) with true in Hx. cbn iota in Hx. rewrite Hlen' in Hx.
      replace (Z.to_nat (-1 + Z.of_nat (S (length L)))) with (length L) in Hx by lia.
      unfold List_append in Hx. rewrite lookup_app_r in Hx by lia.
      rewrite Nat.sub_diag in Hx. simpl in Hx. congruence. }
  split; [|split; [|split; [exact Hlast|split]]].
  - intros i L' Hi Hset.
    destruct (decide (0 <= normalized (Z.of_nat (length L)) i < Z.of_nat (length L)))
      as [Hk|Hk].
    + rewrite (List_setItem_in_range L i v Hi Hn Hk) in Hset. injection Hset as <-.
      set (k := normalized (Z.of_nat (length L)) i) in *.
      assert (HlenL' : length (<[Z.to_nat k := v]> L) = length L) by apply length_insert.
      split; [exact HlenL'|]. split.
      * destruct (List_getItem_in_range (<[Z.to_nat k := v]> L) i Hi)
          as (x & Hx & Hget); rewrite ?HlenL'; try assumption.
        rewrite Hget. f_equal. rewrite HlenL' in Hx. fold k in Hx.
        rewrite list_lookup_insert_eq in Hx by lia. congruence.
      * intros j Hj Hne.
        set (kj := normalized (Z.of_nat (length L)) j) in *.
        destruct (decide (0 <= kj < Z.of_nat (length L))) as [Hkj|Hkj].
        -- destruct (List_getItem_in_range (<[Z.to_nat k := v]> L) j Hj)
             as (x & Hx & Hget); rewrite ?HlenL'; try assumption.
           destruct (List_getItem_in_range L j Hj Hn Hkj) as (y & Hy & Hget').
           rewrite Hget, Hget'. f_equal. rewrite HlenL' in Hx. fold kj in Hx, Hy.
           rewrite list_lookup_insert_ne in Hx by lia. congruence.
        -- destruct (List_index_out_of_range (<[Z.to_nat k := v]> L) j v Hj)
             as [Hget _]; rewrite ?HlenL'; try assumption.
           destruct (List_index_out_of_range L j v Hj Hn Hkj) as [Hget' _].
           now rewrite Hget, Hget'.
    + destruct (List_index_out_of_range L i v Hi Hn Hk) as [_ Hthrow].
      rewrite Hthrow in Hset. discriminate.
  - rewrite !List_length_small; rewrite ?Hlen'; lia.
  - intros j Hj.
    assert (Hjint : in_int j) by (apply Hint; lia).
    assert (Hnorm : ∀ n, normalized n j = j)
      by (intros n; unfold normalized; destruct (Z.ltb_spec j 0); [lia | reflexivity]).
    destruct (List_getItem_in_range (List_append L v) j Hjint Hn')
      as (x & Hx & Hget); [rewrite Hnorm, Hlen'; lia|].
    destruct (List_getItem_in_range L j Hjint Hn) as (y & Hy & Hget');
      [rewrite Hnorm; lia|].
    rewrite Hget, Hget'. f_equal. rewrite Hnorm in Hx, Hy.
    unfold List_append in Hx. rewrite lookup_app_l in Hx by lia. congruence.
  - intros h l Hl. exists (<[l := List (List_append L v)]> h).
    assert (Hlt : (l < length h)%nat) by now apply lookup_lt_Some in Hl.
    assert (Hl' : <[l := List (List_append L v)]> h !! l = Some (List (List_append L v)))
      by now apply list_lookup_insert_eq.
    split; [|split; [exact Hl'|split]].
    + unfold append_at. rewrite (bind_deref _ _ _ _ Hl). unfold store. now rewrite Hl.
    + unfold getItem_at. rewrite (bind_deref _ _ _ _ Hl'). unfold lift.
      now rewrite Hlast.
    + intros q Hq. now apply list_lookup_insert_ne.
Qed.

Lemma List_written_then_read_witness :
  List_setItem [10; 20; 30]%nat (-1) 7%nat = Ok [10; 20; 7]%nat
  ∧ List_getItem [10; 20; 7]%nat (-1) = Ok 7%nat
  ∧ List_getItem (List_append [10; 20; 30]%nat 7%nat) (-1) = Ok 7%nat.
Proof.
  assert (Hlen : Z.of_nat (length [10; 20; 30]%nat) < INT_MAX)
    by (unfold INT_MAX; simpl; lia).
  assert (Hi : in_int (-1)) by (unfold in_int, INT_MIN, INT_MAX; lia).
  destruct (List_written_then_read [10; 20; 30]%nat 7%nat Hlen)
    as (Hset & _ & Hlast & _).
  destruct (Hset (-1) [10; 20; 7]%nat Hi eq_refl) as (_ & Hget & _).
  split; [reflexivity|]. split; [exact Hget | exact Hlast].
Defined.
